(** * training/misc.py: utility functions of the StyleGAN2 training code

    A shallow embedding of [src/training/misc.py] and the properties of its
    functions.  Python integers are [Z] where the source computes with
    them ([//] is [Z.div], both floor) and [nat] where they index or
    count; arrays are a shape together with an accessor; an exception is
    a value of [outcome]. *)

From Stdlib Require Import String Ascii ZArith QArith Qround Bool Arith Lia Lqa
  List Sorted.
Import ListNotations.

Close Scope Q_scope.
Set Implicit Arguments.

(** ** Results of a call: a value, a raised exception, or no return *)

Inductive exn : Type :=
| ZeroDivisionError
| IndexError
| ValueError
| AttributeError
| AssertionError
| InvalidArgumentError.

Inductive outcome (A : Type) : Type :=
| Ret (a : A)
| Raise (e : exn)
| Diverge.

Arguments Ret {A} a.
Arguments Raise {A} e.
Arguments Diverge {A}.

Definition bind {A B : Type} (m : outcome A) (k : A -> outcome B) : outcome B :=
  match m with
  | Ret a => k a
  | Raise e => Raise e
  | Diverge => Diverge
  end.

Declare Scope outcome_scope.
Delimit Scope outcome_scope with outcome.
Notation "x <- m ;; k" := (bind m (fun x => k))
  (at level 61, m at next level, right associativity) : outcome_scope.
Notation "' p <- m ;; k" := (bind m (fun p => k))
  (at level 61, p pattern, m at next level, right associativity) : outcome_scope.

(** Python's [a // b] on integers. *)
Definition floordiv (a b : Z) : outcome Z :=
  if (b =? 0)%Z then Raise ZeroDivisionError else Ret (a / b)%Z.

(** [seq[i]] on a Python list. *)
Definition getitem {A : Type} (l : list A) (i : nat) : outcome A :=
  match nth_error l i with
  | Some a => Ret a
  | None => Raise IndexError
  end.

(** [np.clip(x, lo, hi)] on integers: [minimum(maximum(x, lo), hi)]. *)
Definition np_clip (x lo hi : Z) : Z := Z.min (Z.max x lo) hi.

(** ** The image snapshot grid: [setup_snapshot_image_grid] *)

Module Snapshot.

Local Open Scope outcome_scope.

(** One example of the data set ([real[0]], its pixels in storage order)
    and its label vector ([label[0]]). *)
Definition Image : Type := list Z.
Definition Label : Type := list Z.
Definition Example : Type := (Image * Label)%type.

(** What the function uses of [training_set]: [shape] is
    [[channels, height, width]], and [examples k] is the example the
    [k]-th single draw of the data source yields. *)
Record TrainingSet : Type := {
  shape : list Z;
  label_size : nat;
  examples : nat -> Example
}.

(** [training_set.get_minibatch_np(n)] with the source at position [pos]. *)
Definition get_minibatch_np (ts : TrainingSet) (pos n : nat) : list Example :=
  map (examples ts) (seq pos n).

(** [for _iter in range(1000000)]. *)
Definition max_draws : nat := Z.to_nat 1000000.

(** Lines 345-354: the grid size of a display preset. *)
Definition select_size (shp : list Z) (size : string) : outcome (Z * Z) :=
  let g := (1, 1)%Z in
  g <- (if (size =? "1080p")%string then
          w <- getitem shp 2;; qw <- floordiv 1920 w;;
          h <- getitem shp 1;; qh <- floordiv 1080 h;;
          Ret (np_clip qw 3 32, np_clip qh 2 32)
        else Ret g);;
  g <- (if (size =? "4k")%string then
          w <- getitem shp 2;; qw <- floordiv 3840 w;;
          h <- getitem shp 1;; qh <- floordiv 2160 h;;
          Ret (np_clip qw 7 32, np_clip qh 4 32)
        else Ret g);;
  g <- (if (size =? "8k")%string then
          w <- getitem shp 2;; qw <- floordiv 7680 w;;
          h <- getitem shp 1;; qh <- floordiv 4320 h;;
          Ret (np_clip qw 7 32, np_clip qh 4 32)
        else Ret g);;
  Ret g.

(** [np.zeros(training_set.shape)] and [np.zeros([label_size])]. *)
Definition zeros_image (shp : list Z) : Image :=
  repeat 0%Z (Z.to_nat (fold_right Z.mul 1%Z shp)).
Definition zeros_label (k : nat) : Label := repeat 0%Z k.

(** [np.argmax] of a vector: the first index of its maximum. *)
Fixpoint argmax_from (best : Z) (besti i : nat) (l : list Z) : nat :=
  match l with
  | [] => besti
  | v :: l' =>
      if (best <? v)%Z then argmax_from v i (S i) l'
      else argmax_from best besti (S i) l'
  end.

Definition np_argmax (l : list Z) : outcome nat :=
  match l with
  | [] => Raise ValueError
  | v :: l' => Ret (argmax_from v 0 1 l')
  end.

(** [class_layouts = dict(row_per_class=[gw,1], col_per_class=[1,gh],
    class4x4=[4,4])] and the lookup [class_layouts[layout]]. *)
Definition class_layouts (gw gh : nat) (layout : string) : option (nat * nat) :=
  if (layout =? "row_per_class")%string then Some (gw, 1)
  else if (layout =? "col_per_class")%string then Some (1, gh)
  else if (layout =? "class4x4")%string then Some (4, 4)
  else None.

Definition Blocks : Type := list (list Example).

Definition block_len (blocks : Blocks) (idx : nat) : nat :=
  length (nth idx blocks []).

(** [while idx < len(blocks) and len(blocks[idx]) >= bw * bh:
       idx += training_set.label_size].
    [None] when the fuel runs out before the condition turns false. *)
Fixpoint advance (k cap : nat) (blocks : Blocks) (fuel idx : nat) : option nat :=
  if (idx <? length blocks) && (cap <=? block_len blocks idx) then
    match fuel with
    | O => None
    | S fuel' => advance k cap blocks fuel' (idx + k)
    end
  else Some idx.

(** The loop leaves [len(blocks) - idx] unchanged or smaller at each
    turn, so [S (length blocks)] turns are enough whenever it ends. *)
Definition next_free (k cap : nat) (blocks : Blocks) (idx : nat) : outcome nat :=
  match advance k cap blocks (S (length blocks)) idx with
  | Some i => Ret i
  | None => Diverge
  end.

(** [blocks[idx].append(e)]. *)
Fixpoint append_at (idx : nat) (e : Example) (blocks : Blocks) : Blocks :=
  match blocks, idx with
  | [], _ => []
  | b :: bs, O => (b ++ [e]) :: bs
  | b :: bs, S i => b :: append_at i e bs
  end.

(** [all(len(block) >= bw * bh for block in blocks)]. *)
Definition all_full (cap : nat) (blocks : Blocks) : bool :=
  forallb (fun b => cap <=? length b) blocks.

(** The body of the [for _iter] loop up to the [break] test: the blocks
    after one more draw, and whether the example was appended. *)
Definition place_example (k cap : nat) (e : Example) (blocks : Blocks)
  : outcome (Blocks * bool) :=
  idx <- np_argmax (snd e);;
  idx <- next_free k cap blocks idx;;
  if idx <? length blocks then Ret (append_at idx e blocks, true)
  else Ret (blocks, false).

(** [for _iter in range(n)], from position [pos] of the source; returns
    the blocks and the position reached, that is the number of examples
    drawn so far.  The [break] test is made only after an append. *)
Fixpoint draw_loop (ts : TrainingSet) (cap n pos : nat) (blocks : Blocks)
  : outcome (Blocks * nat) :=
  match n with
  | O => Ret (blocks, pos)
  | S n' =>
      '(blocks', appended) <-
        place_example (label_size ts) cap (examples ts pos) blocks;;
      if appended && all_full cap blocks' then Ret (blocks', S pos)
      else draw_loop ts cap n' (S pos) blocks'
  end.

(** [a[i] = v] on an array of [len(a)] cells, [i] in range. *)
Fixpoint set_cell {A : Type} (i : nat) (v : A) (a : list A) : list A :=
  match a, i with
  | [], _ => []
  | _ :: a', O => v :: a'
  | u :: a', S i' => u :: set_cell i' v a'
  end.

Definition Grid : Type := (list Image * list Label)%type.

(** Lines 381-386 for one block: [for j, (real, label) in enumerate(block)]. *)
Fixpoint place_block (gw gh bw bh nw i j : nat) (block : list Example)
  (g : Grid) : Grid :=
  match block with
  | [] => g
  | (real, label) :: rest =>
      let x := (i mod nw) * bw + j mod bw in
      let y := (i / nw) * bh + j / bw in
      let g' := if (x <? gw) && (y <? gh)
                then (set_cell (x + y * gw) real (fst g),
                      set_cell (x + y * gw) label (snd g))
                else g in
      place_block gw gh bw bh nw i (S j) rest g'
  end.

(** Line 380: [for i, block in enumerate(blocks)]. *)
Fixpoint place_blocks (gw gh bw bh nw i : nat) (blocks : Blocks) (g : Grid)
  : Grid :=
  match blocks with
  | [] => g
  | block :: rest =>
      place_blocks gw gh bw bh nw (S i) rest
        (place_block gw gh bw bh nw i 0 block g)
  end.

(** Lines 365-386, with the number of examples drawn next to the grid. *)
Definition class_layout (ts : TrainingSet) (gw gh bw bh : nat) (g : Grid)
  : outcome (Grid * nat) :=
  let nw := (gw - 1) / bw + 1 in
  let nh := (gh - 1) / bh + 1 in
  let blocks := repeat [] (nw * nh) in
  '(blocks, drawn) <- draw_loop ts (bw * bh) max_draws 0 blocks;;
  Ret (place_blocks gw gh bw bh nw 0 blocks g, drawn).

(** The function, with the number of examples drawn from the source as
    a fourth component. *)
Definition setup_with_draws (ts : TrainingSet) (size layout : string)
  : outcome ((Z * Z) * list Image * list Label * nat) :=
  '(gwz, ghz) <- select_size (shape ts) size;;
  let gw := Z.to_nat gwz in
  let gh := Z.to_nat ghz in
  let reals := repeat (zeros_image (shape ts)) (gw * gh) in
  let labels := repeat (zeros_label (label_size ts)) (gw * gh) in
  let '(reals, labels, drawn) :=
    if (layout =? "random")%string then
      let mb := get_minibatch_np ts 0 (gw * gh) in
      (map fst mb, map snd mb, gw * gh)
    else (reals, labels, 0) in
  match class_layouts gw gh layout with
  | Some (bw, bh) =>
      '(g, n) <- class_layout ts gw gh bw bh (reals, labels);;
      Ret ((gwz, ghz), fst g, snd g, drawn + n)
  | None => Ret ((gwz, ghz), reals, labels, drawn)
  end.

Definition setup_snapshot_image_grid (ts : TrainingSet) (size layout : string)
  : outcome ((Z * Z) * list Image * list Label) :=
  '(g, reals, labels, _) <- setup_with_draws ts size layout;;
  Ret (g, reals, labels).

End Snapshot.

(** ** Arrays

    A numpy array or a tensor is its shape and the element at each
    multi-index; what [item] gives outside the shape is of no account. *)

Module NdArray.

Record ndarray (A : Type) : Type := {
  shape : list nat;
  item : list nat -> A
}.

Definition ndim {A : Type} (a : ndarray A) : nat := length (shape a).

(** [np.zeros(shp)], with [zero] the zero of the element type. *)
Definition zeros {A : Type} (zero : A) (shp : list nat) : ndarray A :=
  {| shape := shp; item := fun _ => zero |}.

(** An operation applied element by element. *)
Definition elementwise {A B : Type} (f : A -> B) (a : ndarray A) : ndarray B :=
  {| shape := shape a; item := fun idx => f (item a idx) |}.

(** [a[i]] for [i] in range. *)
Definition subarray {A : Type} (a : ndarray A) (i : nat) : ndarray A :=
  {| shape := tl (shape a); item := fun idx => item a (i :: idx) |}.

(** [a.transpose(1, 2, 0)] of a three-dimensional array. *)
Definition transpose_1_2_0 {A : Type} (a : ndarray A) : ndarray A :=
  {| shape := [nth 1 (shape a) 0; nth 2 (shape a) 0; nth 0 (shape a) 0];
     item := fun idx =>
       match idx with
       | [i; j; k] => item a [k; i; j]
       | _ => item a idx
       end |}.

(** A multi-index or a shape split as [(..., r, c)]. *)
Definition split_last2 (idx : list nat) : option (list nat * nat * nat) :=
  match rev idx with
  | c :: r :: lead => Some (rev lead, r, c)
  | _ => None
  end.

(** [grid[..., y : y + h, x : x + w] = src].  The slices are cut to the
    array's bounds, and [src] must broadcast to what is left of them: a
    dimension of [src] is the slice's, or is 1. *)
Definition assign_tile {A : Type} (grid : ndarray A) (y x h w : nat)
  (src : ndarray A) : outcome (ndarray A) :=
  match split_last2 (shape grid), split_last2 (shape src) with
  | Some (lead, rows, cols), Some (slead, sh, sw) =>
      let y0 := Nat.min y rows in
      let y1 := Nat.min (y + h) rows in
      let x0 := Nat.min x cols in
      let x1 := Nat.min (x + w) cols in
      if (if list_eq_dec Nat.eq_dec slead lead then true else false)
         && ((sh =? y1 - y0) || (sh =? 1))
         && ((sw =? x1 - x0) || (sw =? 1))
      then
        Ret {| shape := shape grid;
               item := fun idx =>
                 match split_last2 idx with
                 | Some (l, r, c) =>
                     if (y0 <=? r) && (r <? y1) && (x0 <=? c) && (c <? x1)
                     then item src (l ++ [r - y0; c - x0])
                     else item grid idx
                 | None => item grid idx
                 end |}
      else Raise ValueError
  | _, _ => Raise IndexError
  end.

End NdArray.

(** ** Image utilities: [adjust_dynamic_range], [create_image_grid],
    [convert_to_pil_image] *)

Module ImageUtils.

Import NdArray.
Local Open Scope outcome_scope.

(** [int(np.ceil(np.sqrt(num)))]. *)
Definition ceil_sqrt (num : nat) : nat :=
  let s := Nat.sqrt num in
  if s * s =? num then s else S s.

Section Grid.

Variable A : Type.
Variable zero : A.

(** Lines 67-70: [for idx in range(num)], over the indices left. *)
Fixpoint paste_images (images : ndarray A) (grid_w img_w img_h : nat)
  (idxs : list nat) (grid : ndarray A) : outcome (ndarray A) :=
  match idxs with
  | [] => Ret grid
  | idx :: rest =>
      if grid_w =? 0 then Raise ZeroDivisionError
      else
        let x := (idx mod grid_w) * img_w in
        let y := (idx / grid_w) * img_h in
        grid <- assign_tile grid y x img_h img_w (subarray images idx);;
        paste_images images grid_w img_w img_h rest grid
  end.

Definition create_image_grid (images : ndarray A)
  (grid_size : option (nat * nat)) : outcome (ndarray A) :=
  if negb ((ndim images =? 3) || (ndim images =? 4)) then Raise AssertionError
  else
    let num := hd 0 (shape images) in
    let img_w := last (shape images) 0 in
    let img_h := last (removelast (shape images)) 0 in
    let '(grid_w, grid_h) :=
      match grid_size with
      | Some (w, h) => (w, h)
      | None =>
          let grid_w := Nat.max (ceil_sqrt num) 1 in
          (grid_w, Nat.max ((num - 1) / grid_w + 1) 1)
      end in
    let grid :=
      zeros zero (removelast (removelast (tl (shape images)))
                  ++ [grid_h * img_h; grid_w * img_w]) in
    paste_images images grid_w img_w img_h (seq 0 num) grid.

End Grid.

Local Open Scope Q_scope.

(** A dynamic range [[lo, hi]]. *)
Definition drange : Type := (Q * Q)%type.

(** [drange_in != drange_out], numbers compared by value. *)
Definition drange_neb (a b : drange) : bool :=
  negb (Qeq_bool (fst a) (fst b) && Qeq_bool (snd a) (snd b)).

(** Lines 49-54, in exact rational arithmetic: the rounding of the
    float32 operations is left out. *)
Definition adjust_dynamic_range (data : ndarray Q) (drange_in drange_out : drange)
  : ndarray Q :=
  if drange_neb drange_in drange_out then
    let scale := (snd drange_out - fst drange_out)
                 / (snd drange_in - fst drange_in) in
    let bias := fst drange_out - fst drange_in * scale in
    elementwise (fun v => v * scale + bias) data
  else data.

(** [np.rint]: the nearest integer, a tie going to the even one. *)
Definition np_rint (v : Q) : Z :=
  let f := Qfloor v in
  match Qcompare (v - inject_Z f) (1 # 2) with
  | Lt => f
  | Gt => (f + 1)%Z
  | Eq => if Z.even f then f else (f + 1)%Z
  end.

(** [np.rint(image).clip(0, 255).astype(np.uint8)] on one element. *)
Definition to_uint8 (v : Q) : Z := np_clip (np_rint v) 0 255.

(** Lines 73-84; the result is the array and the mode handed to
    [PIL.Image.fromarray]. *)
Definition convert_to_pil_image (image : ndarray Q) (dr : drange)
  : outcome (ndarray Z * string) :=
  if negb ((ndim image =? 2)%nat || (ndim image =? 3)%nat) then Raise AssertionError
  else
    let image :=
      if (ndim image =? 3)%nat then
        if (hd 0%nat (shape image) =? 1)%nat then subarray image 0
        else transpose_1_2_0 image
      else image in
    let image := adjust_dynamic_range image dr (0, 255) in
    let image := elementwise to_uint8 image in
    let fmt := if (ndim image =? 3)%nat then "RGB"%string else "L"%string in
    Ret (image, fmt).


End ImageUtils.

(** ** Mirror augmentation: [apply_mirror_augment],
    [apply_mirror_augment_v] *)

Module Mirror.

Import NdArray.

(** [np.random.rand(n) < 0.5] at one element: [u] is what the generator
    yields for each element of the minibatch, a number of [[0, 1)]. *)
Definition flip_mask (u : nat -> Q) (n : nat) : bool :=
  match Qcompare (u n) (1 # 2) with
  | Lt => true
  | _ => false
  end.

(** The multi-index [idx] with its entry of [axis] counted from the end
    of that axis: what a slice [::-1] of the axis reads at [idx]. *)
Fixpoint reversed (shp idx : list nat) (axis : nat) : list nat :=
  match shp, idx, axis with
  | d :: _, i :: idx', O => (d - 1 - i) :: idx'
  | _ :: shp', i :: idx', S axis' => i :: reversed shp' idx' axis'
  | _, _, _ => idx
  end.

Section Minibatch.

Variable A : Type.

(** Lines 89-93.  The index [[mask, :, :, ::-1]] needs four axes; the
    right-hand side is read from the copy before any element is
    written. *)
Definition apply_mirror_augment (u : nat -> Q) (minibatch : ndarray A)
  : outcome (ndarray A) :=
  if ndim minibatch <? 4 then Raise IndexError
  else
    Ret {| shape := shape minibatch;
           item := fun idx =>
             match idx with
             | n :: _ =>
                 if flip_mask u n
                 then item minibatch (reversed (shape minibatch) idx 3)
                 else item minibatch idx
             | [] => item minibatch idx
             end |}.

(** Lines 95-99. *)
Definition apply_mirror_augment_v (u : nat -> Q) (minibatch : ndarray A)
  : outcome (ndarray A) :=
  if ndim minibatch <? 4 then Raise IndexError
  else
    Ret {| shape := shape minibatch;
           item := fun idx =>
             match idx with
             | n :: _ =>
                 if flip_mask u n
                 then item minibatch (reversed (shape minibatch) idx 2)
                 else item minibatch idx
             | [] => item minibatch idx
             end |}.

End Minibatch.

End Mirror.

(** ** Augmentation: [random_cutout] *)

Module Augment.

Import NdArray.
Local Open Scope outcome_scope.

(** [tf.cast(v, tf.int32)] of a float: the fraction is dropped. *)
Definition cast_int32 (v : Q) : Z :=
  if Qle_bool 0 v then Qfloor v else Qceiling v.

Definition Qminimum (a b : Q) : Q := if Qle_bool a b then a else b.

(** [tf.random_uniform(shape=[], minval, maxval, dtype=tf.int32)]: an
    integer of [[minval, maxval)], here the one the raw value [u] of the
    generator selects; an empty range is refused when the op runs. *)
Definition random_uniform_int (u minval maxval : Z) : outcome Z :=
  if (minval <? maxval)%Z then Ret (minval + u mod (maxval - minval))%Z
  else Raise InvalidArgumentError.

(** Lines 310-318: the side of the square and its top-left corner. *)
Definition cutout_draws (height width : nat) (alpha : Q) (u : Z * Z * Z)
  : outcome (Z * Z * Z) :=
  let '(u_size, u_x, u_y) := u in
  let max_val :=
    cast_int32 (Qminimum (alpha * inject_Z (Z.of_nat width))
                         (alpha * inject_Z (Z.of_nat height))) in
  size <- random_uniform_int u_size 0 max_val;;
  let x_loc_upper_bound := (Z.of_nat width - size)%Z in
  let y_loc_upper_bound := (Z.of_nat height - size)%Z in
  x <- random_uniform_int u_x 0 x_loc_upper_bound;;
  y <- random_uniform_int u_y 0 y_loc_upper_bound;;
  Ret (size, x, y).

(** [tf.ones(shp)]. *)
Definition ones (shp : list nat) : ndarray Q :=
  {| shape := shp; item := fun _ => 1%Q |}.

(** [tf.image.pad_to_bounding_box(image, offset_height, offset_width,
    target_height, target_width)] of a height-width-channel image: zeros
    around it; the offsets and the padding after it must not be negative. *)
Definition pad_to_bounding_box (image : ndarray Q)
  (offset_height offset_width : Z) (target_height target_width : nat)
  : outcome (ndarray Q) :=
  match shape image with
  | [h; w; c] =>
      if ((offset_height <? 0) || (offset_width <? 0)
          || (Z.of_nat target_width - offset_width - Z.of_nat w <? 0)
          || (Z.of_nat target_height - offset_height - Z.of_nat h <? 0))%Z
      then Raise ValueError
      else
        let oy := Z.to_nat offset_height in
        let ox := Z.to_nat offset_width in
        Ret {| shape := [target_height; target_width; c];
               item := fun idx =>
                 match idx with
                 | [r; col; ch] =>
                     if (oy <=? r) && (r <? oy + h)
                        && (ox <=? col) && (col <? ox + w)
                     then item image [r - oy; col - ox; ch]
                     else 0%Q
                 | _ => 0%Q
                 end |}
  | _ => Raise ValueError
  end.

(** [tf.multiply(img, mask)] with a three-channel [mask] of the image's
    height and width: the image has three channels too, or one, which
    is then used for each channel of the mask. *)
Definition multiply (img mask : ndarray Q) : outcome (ndarray Q) :=
  match shape img, shape mask with
  | [h; w; c], [mh; mw; mc] =>
      if (h =? mh) && (w =? mw) && ((c =? mc) || (c =? 1)) then
        Ret {| shape := shape mask;
               item := fun idx =>
                 match idx with
                 | [r; col; ch] =>
                     let ch := if c =? 1 then 0 else ch in
                     (item img [r; col; ch] * item mask idx)%Q
                 | _ => 0%Q
                 end |}
      else Raise InvalidArgumentError
  | _, _ => Raise InvalidArgumentError
  end.

(** Lines 295-326.  [u] is what the generator yields for the three
    draws.  [static_shape] tells whether [erase_area.shape] is known
    when the Python test of line 321 runs: it is under eager execution,
    and is not when a graph is built, where the drawn size is a tensor
    and the test is false. *)
Definition random_cutout (static_shape : bool) (tf_img : ndarray Q) (alpha : Q)
  (u : Z * Z * Z) : outcome (ndarray Q) :=
  match shape tf_img with
  | [height; width; channel] =>
      '(size, x, y) <- cutout_draws height width alpha u;;
      let erase_area := ones [Z.to_nat size; Z.to_nat size; 3] in
      if static_shape && (size =? 0)%Z then Ret tf_img
      else
        padded <- pad_to_bounding_box erase_area y x height width;;
        let mask := elementwise (fun v => (1 - v)%Q) padded in
        multiply tf_img mask
  | _ => Raise ValueError
  end.

End Augment.

(** ** Pickles: [locate_latest_pkl] *)

Module Pickle.

Local Open Scope outcome_scope.

Definition is_slash (c : ascii) : bool := (c =? "/")%char.

(** [fnmatch] for a pattern of literal characters and [*]. *)
Fixpoint fnmatch (pat name : string) {struct pat} : bool :=
  match pat with
  | EmptyString => match name with EmptyString => true | _ => false end
  | String "*"%char pat' =>
      (fix star (n : string) : bool :=
         fnmatch pat' n
         || match n with
            | EmptyString => false
            | String _ n' => star n'
            end) name
  | String c pat' =>
      match name with
      | String d name' => (c =? d)%char && fnmatch pat' name'
      | EmptyString => false
      end
  end.

(** [s.rstrip('/')]. *)
Fixpoint rstrip_slash (s : string) : string :=
  match s with
  | EmptyString => EmptyString
  | String c s' =>
      match rstrip_slash s' with
      | EmptyString => if is_slash c then EmptyString else String c EmptyString
      | r => String c r
      end
  end.

Fixpoint all_slashes (s : string) : bool :=
  match s with
  | EmptyString => true
  | String c s' => is_slash c && all_slashes s'
  end.

Fixpoint ends_with_slash (s : string) : bool :=
  match s with
  | EmptyString => false
  | String c EmptyString => is_slash c
  | String _ s' => ends_with_slash s'
  end.

(** [os.path.join(a, b)] on a POSIX system. *)
Definition path_join (a b : string) : string :=
  match b with
  | String "/"%char _ => b
  | _ =>
      match a with
      | EmptyString => b
      | _ => if ends_with_slash a then (a ++ b)%string
             else (a ++ "/" ++ b)%string
      end
  end.

(** [os.path.basename(p)]: what follows the last slash. *)
Fixpoint basename (p : string) : string :=
  match p with
  | EmptyString => EmptyString
  | String c p' =>
      if is_slash c then basename p'
      else if existsb is_slash (list_ascii_of_string p') then basename p'
      else p
  end.

(** [p[:i]] for [i] just after the last slash of [p]. *)
Fixpoint upto_last_slash (p : string) : string :=
  match p with
  | EmptyString => EmptyString
  | String c p' =>
      if is_slash c || existsb is_slash (list_ascii_of_string p')
      then String c (upto_last_slash p')
      else EmptyString
  end.

(** [os.path.dirname(p)]: the head, without its trailing slashes unless
    it is made of slashes only. *)
Definition dirname (p : string) : string :=
  let head := upto_last_slash p in
  if all_slashes head then head else rstrip_slash head.

(** The entries of the result directory, each with the names it holds
    when it is a directory. *)
Definition Tree : Type := list (string * list string).

(** [glob.glob(os.path.join(result_dir, dpat, fpat))] for a [result_dir]
    that has no pattern character of its own: the paths of the files
    matching [fpat] in the entries matching [dpat], in no particular
    order. *)
Definition glob (tree : Tree) (result_dir dpat fpat : string) : list string :=
  let head := dirname (path_join result_dir dpat) in
  flat_map
    (fun entry =>
       if fnmatch dpat (fst entry) then
         List.map (fun f => path_join (path_join head (fst entry)) f)
                  (filter (fnmatch fpat) (snd entry))
       else [])
    tree.

(** [sorted] on strings: by insertion, with the order of the code points. *)
Fixpoint insert_sorted (s : string) (l : list string) : list string :=
  match l with
  | [] => [s]
  | t :: l' => if String.leb s t then s :: l else t :: insert_sorted s l'
  end.

Definition sorted (l : list string) : list string :=
  fold_right insert_sorted [] l.

(** [\d] on the characters of a byte string. *)
Definition is_digit (c : ascii) : bool :=
  (48 <=? nat_of_ascii c) && (nat_of_ascii c <=? 57).

(** What [.pkl] of the pattern matches at the head of [s]: any character
    but a newline, then [pkl]. *)
Definition match_dot_pkl (s : string) : bool :=
  match s with
  | String c rest => negb (c =? "010")%char && String.prefix "pkl" rest
  | EmptyString => false
  end.

(** [(\d+)] followed by [.pkl]: the longest run of digits at the head
    of [s] after which the rest of the pattern matches. *)
Fixpoint match_digits (s : string) : option string :=
  match s with
  | String c s' =>
      if is_digit c then
        match match_digits s' with
        | Some ds => Some (String c ds)
        | None => if match_dot_pkl s' then Some (String c EmptyString) else None
        end
      else None
  | EmptyString => None
  end.

(** [re.compile('network-snapshot-(\d+).pkl').match(name)]: group 1
    when the pattern matches at the start of [name]. *)
Definition RE_KIMG_match (name : string) : option string :=
  if String.prefix "network-snapshot-" name
  then match_digits (substring 17 (String.length name - 17) name)
  else None.

(** [int(s)] of a string of digits. *)
Definition py_int (s : string) : Z :=
  fold_left (fun acc c => (10 * acc + Z.of_nat (nat_of_ascii c - 48))%Z)
            (list_ascii_of_string s) 0%Z.

(** Lines 32-40.  The iteration count is a float in the source; it is
    the rational of the same value here. *)
Definition locate_latest_pkl (tree : Tree) (result_dir : string)
  : outcome (option string * Q) :=
  let allpickles := sorted (glob tree result_dir "0*" "network-*.pkl") in
  if List.length allpickles =? 0 then Ret (None, 0%Q)
  else
    let latest_pickle := last allpickles EmptyString in
    let resume_run_id := basename (dirname latest_pickle) in
    match RE_KIMG_match (basename latest_pickle) with
    | None => Raise AttributeError
    | Some group1 =>
        let kimg := py_int group1 in
        Ret (Some latest_pickle, inject_Z kimg)
    end.

End Pickle.

(** * Properties *)

Unset Implicit Arguments.

Lemma bind_Ret_inv {A B : Type} (m : outcome A) (k : A -> outcome B) (b : B) :
  bind m k = Ret b -> exists a, m = Ret a /\ k a = Ret b.
Proof.
  destruct m as [a | e | ]; simpl; intros H; try discriminate.
  exists a; split; [reflexivity | exact H].
Qed.

Lemma floordiv_Ret (a b : Z) :
  (0 < b)%Z -> floordiv a b = Ret (a / b)%Z.
Proof.
  intros Hb; unfold floordiv.
  destruct (Z.eqb_spec b 0); [lia | reflexivity].
Qed.

Lemma getitem_Ret {A : Type} (l : list A) (i : nat) (a : A) :
  nth_error l i = Some a -> getitem l i = Ret a.
Proof. intros H; unfold getitem; rewrite H; reflexivity. Qed.

(** ** The snapshot grid *)

Module SnapshotFacts.

Import Snapshot.
Local Open Scope outcome_scope.

(** *** Grid size *)

(** The grid size of each preset for images of height [h] and width [w]. *)
Definition preset_size (size : string) (h w : Z) : Z * Z :=
  if (size =? "1080p")%string then
    (np_clip (1920 / w) 3 32, np_clip (1080 / h) 2 32)
  else if (size =? "4k")%string then
    (np_clip (3840 / w) 7 32, np_clip (2160 / h) 4 32)
  else if (size =? "8k")%string then
    (np_clip (7680 / w) 7 32, np_clip (4320 / h) 4 32)
  else (1, 1)%Z.

Lemma select_size_preset (shp : list Z) (size : string) (h w : Z) :
  nth_error shp 1 = Some h -> nth_error shp 2 = Some w ->
  (0 < h)%Z -> (0 < w)%Z ->
  select_size shp size = Ret (preset_size size h w).
Proof.
  intros Hh Hw Hhpos Hwpos.
  assert (Hrow : forall (p q lw lh hw hh : Z),
             (w0 <- getitem shp 2;; qw <- floordiv p w0;;
              h0 <- getitem shp 1;; qh <- floordiv q h0;;
              Ret (np_clip qw lw hw, np_clip qh lh hh))
             = Ret (np_clip (p / w) lw hw, np_clip (q / h) lh hh)).
  { intros; rewrite (getitem_Ret _ _ _ Hw); cbn [bind].
    rewrite (floordiv_Ret _ _ Hwpos); cbn [bind].
    rewrite (getitem_Ret _ _ _ Hh); cbn [bind].
    rewrite (floordiv_Ret _ _ Hhpos); reflexivity. }
  unfold select_size, preset_size.
  destruct (String.eqb_spec size "1080p") as [-> | _];
    [rewrite Hrow; reflexivity | cbn [bind]].
  destruct (String.eqb_spec size "4k") as [-> | _];
    [rewrite Hrow; reflexivity | cbn [bind]].
  destruct (String.eqb_spec size "8k") as [-> | _];
    [rewrite Hrow; reflexivity | reflexivity].
Qed.

(** *** The bucket advance *)

Lemma advance_terminates (k cap : nat) (blocks : Blocks) (fuel idx : nat) :
  length blocks <= idx + fuel * k ->
  exists i, advance k cap blocks fuel idx = Some i.
Proof.
  revert idx; induction fuel as [ | fuel IH]; intros idx Hlen; simpl.
  - destruct (Nat.ltb_spec idx (length blocks)); [lia | ].
    simpl; eauto.
  - destruct ((idx <? length blocks) && (cap <=? block_len blocks idx));
      [ | eauto].
    apply IH; lia.
Qed.

(** Where the advance stops: [m] buckets further, every bucket passed
    being a full block, at a block that is not full or past the last. *)
Lemma advance_spec (k cap : nat) (blocks : Blocks) (fuel idx i : nat) :
  advance k cap blocks fuel idx = Some i ->
  exists m,
    i = idx + m * k
    /\ (forall m', m' < m ->
          idx + m' * k < length blocks
          /\ cap <= block_len blocks (idx + m' * k))
    /\ (i < length blocks -> block_len blocks i < cap).
Proof.
  revert idx; induction fuel as [ | fuel IH]; intros idx; simpl.
  - destruct (Nat.ltb_spec idx (length blocks)) as [Hlt | Hge]; simpl.
    + destruct (Nat.leb_spec cap (block_len blocks idx)) as [Hfull | Hfree];
        [discriminate | ].
      intros [= <-]; exists 0; repeat split; try lia.
    + intros [= <-]; exists 0; repeat split; try lia.
  - destruct (Nat.ltb_spec idx (length blocks)) as [Hlt | Hge]; simpl.
    + destruct (Nat.leb_spec cap (block_len blocks idx)) as [Hfull | Hfree].
      * intros H; destruct (IH _ H) as (m & -> & Hpass & Hstop).
        exists (S m); split; [lia | split].
        -- intros [ | m'] Hm'.
           ++ rewrite Nat.add_0_r; auto.
           ++ replace (idx + S m' * k) with (idx + k + m' * k) by lia.
              apply Hpass; lia.
        -- replace (idx + S m * k) with (idx + k + m * k) by lia; exact Hstop.
      * intros [= <-]; exists 0; repeat split; try lia.
    + intros [= <-]; exists 0; repeat split; try lia.
Qed.

Lemma next_free_returns (k cap : nat) (blocks : Blocks) (idx : nat) :
  0 < k -> exists i, next_free k cap blocks idx = Ret i.
Proof.
  intros Hk; unfold next_free.
  destruct (advance_terminates k cap blocks (S (length blocks)) idx) as [i ->];
    [nia | eauto].
Qed.

Lemma next_free_spec (k cap : nat) (blocks : Blocks) (idx i : nat) :
  next_free k cap blocks idx = Ret i ->
  exists m,
    i = idx + m * k
    /\ (forall m', m' < m ->
          idx + m' * k < length blocks
          /\ cap <= block_len blocks (idx + m' * k))
    /\ (i < length blocks -> block_len blocks i < cap).
Proof.
  unfold next_free.
  destruct (advance k cap blocks (S (length blocks)) idx) eqn:E;
    [ | discriminate].
  intros [= <-]; eapply advance_spec; eassumption.
Qed.

(** With a [label_size] of zero the index never moves: the loop of the
    source does not end when it starts at a full block, and that is the
    one case where the fuel runs out. *)
Lemma advance_stuck (cap : nat) (blocks : Blocks) (fuel idx : nat) :
  advance 0 cap blocks fuel idx
  = if (idx <? length blocks) && (cap <=? block_len blocks idx) then None
    else Some idx.
Proof.
  induction fuel as [ | fuel IH]; simpl; [reflexivity | ].
  rewrite Nat.add_0_r, IH.
  destruct ((idx <? length blocks) && (cap <=? block_len blocks idx));
    reflexivity.
Qed.

Lemma next_free_diverges (k cap : nat) (blocks : Blocks) (idx : nat) :
  next_free k cap blocks idx = Diverge
  <-> k = 0 /\ idx < length blocks /\ cap <= block_len blocks idx.
Proof.
  split.
  - intros H; destruct (Nat.eq_dec k 0) as [-> | Hk].
    + unfold next_free in H; rewrite advance_stuck in H.
      destruct (Nat.ltb_spec idx (length blocks)); simpl in H;
        [ | discriminate].
      destruct (Nat.leb_spec cap (block_len blocks idx)); [ | discriminate].
      auto.
    + destruct (next_free_returns k cap blocks idx ltac:(lia)) as [i Hi].
      congruence.
  - intros (-> & Hlt & Hfull); unfold next_free; rewrite advance_stuck.
    destruct (Nat.ltb_spec idx (length blocks)); [ | lia].
    destruct (Nat.leb_spec cap (block_len blocks idx)); [reflexivity | lia].
Qed.

(** *** One draw *)

Lemma append_at_length (i : nat) (e : Example) (blocks : Blocks) :
  length (append_at i e blocks) = length blocks.
Proof.
  revert i; induction blocks as [ | b bs IH]; intros [ | i]; simpl; auto.
Qed.

Lemma nth_append_at (i j : nat) (e : Example) (blocks : Blocks) :
  i < length blocks ->
  nth j (append_at i e blocks) []
  = if j =? i then nth i blocks [] ++ [e] else nth j blocks [].
Proof.
  revert i j; induction blocks as [ | b bs IH]; intros i j Hi; simpl in Hi;
    [lia | ].
  destruct i as [ | i], j as [ | j]; simpl; auto.
  rewrite IH by lia; reflexivity.
Qed.

Lemma block_len_append_at (i j : nat) (e : Example) (blocks : Blocks) :
  i < length blocks ->
  block_len (append_at i e blocks) j
  = if j =? i then S (block_len blocks i) else block_len blocks j.
Proof.
  intros Hi; unfold block_len; rewrite nth_append_at by assumption.
  destruct (j =? i); [ | reflexivity].
  rewrite length_app; simpl; lia.
Qed.

Lemma all_full_true (cap : nat) (blocks : Blocks) :
  all_full cap blocks = true
  <-> forall i, i < length blocks -> cap <= block_len blocks i.
Proof.
  unfold all_full, block_len; rewrite forallb_forall; split.
  - intros H i Hi; apply Nat.leb_le, H, nth_In, Hi.
  - intros H b Hb; apply Nat.leb_le.
    destruct (In_nth _ _ [] Hb) as (i & Hi & <-); auto.
Qed.

Lemma np_argmax_returns (l : list Z) :
  l <> [] -> exists c, np_argmax l = Ret c.
Proof. destruct l; [congruence | simpl; eauto]. Qed.

(** The two ways a draw ends: the example is appended to the block the
    advance stopped at, or the advance ran past the last block and the
    example is dropped. *)
Lemma place_example_spec (k cap : nat) (e : Example) (blocks blocks' : Blocks)
  (appended : bool) :
  place_example k cap e blocks = Ret (blocks', appended) ->
  exists c i,
    np_argmax (snd e) = Ret c
    /\ next_free k cap blocks c = Ret i
    /\ ((appended = true /\ i < length blocks
         /\ blocks' = append_at i e blocks)
        \/ (appended = false /\ length blocks <= i /\ blocks' = blocks)).
Proof.
  unfold place_example; intros H.
  apply bind_Ret_inv in H; destruct H as (c & Hc & H).
  apply bind_Ret_inv in H; destruct H as (i & Hi & H).
  exists c, i; split; [exact Hc | split; [exact Hi | ]].
  destruct (Nat.ltb_spec i (length blocks)); injection H as <- <-; auto.
Qed.

Lemma place_example_returns (k cap : nat) (e : Example) (blocks : Blocks) :
  0 < k -> snd e <> [] -> exists r, place_example k cap e blocks = Ret r.
Proof.
  intros Hk He; unfold place_example.
  destruct (np_argmax_returns _ He) as [c ->]; cbn [bind].
  destruct (next_free_returns k cap blocks c Hk) as [i ->]; cbn [bind].
  destruct (i <? length blocks); eauto.
Qed.

Lemma place_example_length (k cap : nat) (e : Example) (blocks blocks' : Blocks)
  (appended : bool) :
  place_example k cap e blocks = Ret (blocks', appended) ->
  length blocks' = length blocks.
Proof.
  intros H; apply place_example_spec in H.
  destruct H as (c & i & _ & _ & [(_ & _ & ->) | (_ & _ & ->)]);
    auto using append_at_length.
Qed.

Lemma place_example_dropped (k cap : nat) (e : Example) (blocks blocks' : Blocks) :
  place_example k cap e blocks = Ret (blocks', false) -> blocks' = blocks.
Proof.
  intros H; apply place_example_spec in H.
  destruct H as (c & i & _ & _ & [(? & _) | (_ & _ & ->)]);
    [discriminate | reflexivity].
Qed.

(** No block grows past its capacity. *)
Definition within (cap : nat) (blocks : Blocks) : Prop :=
  forall i, block_len blocks i <= cap.

Lemma place_example_within (k cap : nat) (e : Example) (blocks blocks' : Blocks)
  (appended : bool) :
  place_example k cap e blocks = Ret (blocks', appended) ->
  within cap blocks -> within cap blocks'.
Proof.
  intros H Hw; apply place_example_spec in H.
  destruct H as (c & i & _ & Hi & [(_ & Hlt & ->) | (_ & _ & ->)]); auto.
  apply next_free_spec in Hi; destruct Hi as (m & _ & _ & Hfree).
  intros j; rewrite block_len_append_at by assumption.
  destruct (j =? i); [apply Hfree, Hlt | apply Hw].
Qed.

Lemma within_empty (cap n : nat) : within cap (repeat [] n).
Proof.
  intros i; unfold block_len.
  destruct (Nat.lt_ge_cases i n) as [Hi | Hi].
  - rewrite nth_repeat_lt by assumption; simpl; lia.
  - rewrite nth_overflow by (rewrite repeat_length; lia); simpl; lia.
Qed.

(** *** The loop *)

(** The blocks after [t] more draws from position [pos] when nothing
    stops the loop. *)
Fixpoint fill (ts : TrainingSet) (cap pos t : nat) (blocks : Blocks)
  : outcome Blocks :=
  match t with
  | O => Ret blocks
  | S t' =>
      '(blocks', _) <-
        place_example (label_size ts) cap (examples ts pos) blocks;;
      fill ts cap (S pos) t' blocks'
  end.

(** The labels of the source have [label_size] entries, at least one. *)
Definition well_formed (ts : TrainingSet) : Prop :=
  0 < label_size ts
  /\ forall t, length (snd (examples ts t)) = label_size ts.

Lemma well_formed_label (ts : TrainingSet) (t : nat) :
  well_formed ts -> snd (examples ts t) <> [].
Proof.
  intros [Hk Hlen] E; specialize (Hlen t); rewrite E in Hlen; simpl in Hlen; lia.
Qed.

Lemma draw_loop_returns (ts : TrainingSet) (cap n pos : nat) (blocks : Blocks) :
  well_formed ts -> exists r, draw_loop ts cap n pos blocks = Ret r.
Proof.
  intros Hwf; revert pos blocks; induction n as [ | n IH]; intros pos blocks;
    simpl; [eauto | ].
  destruct (place_example_returns (label_size ts) cap (examples ts pos) blocks
              (proj1 Hwf) (well_formed_label ts pos Hwf)) as [[b a] ->];
    cbn [bind].
  destruct (a && all_full cap b); eauto.
Qed.

(** The loop stops after [t] draws, at the first [t] that leaves every
    block full, or at [n] when there is none before. *)
Lemma draw_loop_spec (ts : TrainingSet) (cap n pos : nat) (blocks b : Blocks)
  (drawn : nat) :
  draw_loop ts cap n pos blocks = Ret (b, drawn) ->
  all_full cap blocks = false ->
  exists t,
    t <= n /\ drawn = pos + t
    /\ fill ts cap pos t blocks = Ret b
    /\ (t = n \/ all_full cap b = true)
    /\ (forall t', t' < t ->
          exists b', fill ts cap pos t' blocks = Ret b'
                     /\ all_full cap b' = false).
Proof.
  revert pos blocks; induction n as [ | n IH]; intros pos blocks; simpl.
  - intros [= <- <-] _; exists 0.
    split; [lia | split; [lia | split; [reflexivity | split; [auto | ]]]].
    intros t' Ht'; lia.
  - intros H Hnot.
    apply bind_Ret_inv in H; destruct H as ([b1 a] & Hplace & H).
    destruct (a && all_full cap b1) eqn:Hstop.
    + injection H as <- <-.
      apply andb_prop in Hstop; destruct Hstop as [_ Hfull].
      exists 1.
      split; [lia | split; [lia | split; [ | split; [auto | ]]]].
      * simpl; rewrite Hplace; reflexivity.
      * intros t' Ht'; assert (t' = 0) as -> by lia; simpl; eauto.
    + assert (Hnot1 : all_full cap b1 = false).
      { destruct a; simpl in Hstop; [exact Hstop | ].
        rewrite (place_example_dropped _ _ _ _ _ Hplace); exact Hnot. }
      destruct (IH _ _ H Hnot1) as (t & Hle & -> & Hfill & Hend & Hbefore).
      exists (S t).
      split; [lia | split; [lia | split; [ | split]]].
      * simpl; rewrite Hplace; exact Hfill.
      * destruct Hend as [-> | Hfull]; auto.
      * intros [ | t'] Ht'; simpl; [eauto | ].
        rewrite Hplace; cbn [bind]; apply Hbefore; lia.
Qed.

(** *** Cells of the grid *)

Lemma set_cell_length {A : Type} (i : nat) (v : A) (a : list A) :
  length (set_cell i v a) = length a.
Proof.
  revert i; induction a as [ | u a IH]; intros [ | i]; simpl; auto.
Qed.

Lemma nth_set_cell {A : Type} (i p : nat) (v d : A) (a : list A) :
  i < length a ->
  nth p (set_cell i v a) d = if p =? i then v else nth p a d.
Proof.
  revert i p; induction a as [ | u a IH]; intros i p Hi; simpl in Hi; [lia | ].
  destruct i as [ | i], p as [ | p]; simpl; auto.
  apply IH; lia.
Qed.

Lemma div_mod_pair (b q r : nat) :
  r < b -> (q * b + r) / b = q /\ (q * b + r) mod b = r.
Proof.
  intros Hr; split; symmetry.
  - apply Nat.div_unique with r; lia.
  - apply Nat.mod_unique with q; lia.
Qed.

(** The cell of index [p]: what the arrays hold there. *)
Definition peek (g : Grid) (p : nat) : Example :=
  (nth p (fst g) [], nth p (snd g) []).

(** The block, and the place in the block, that is shown at column [x]
    and row [y] of the grid. *)
Definition cell_block (bw bh nw x y : nat) : nat * nat :=
  ((y / bh) * nw + x / bw, (y mod bh) * bw + x mod bw).

(** The same for the cell of index [p] of a grid [gw] wide. *)
Definition cell_source (gw bw bh nw p : nat) : nat * nat :=
  cell_block bw bh nw (p mod gw) (p / gw).

(** The example a cell of the grid shows, when its place in its block
    is taken. *)
Definition entry_at (gw bw bh nw : nat) (blocks : Blocks) (p : nat)
  : option Example :=
  let '(i, j) := cell_source gw bw bh nw p in
  nth_error (nth i blocks []) j.

Section Placement.

Variables gw gh bw bh nw : nat.
Hypothesis Hbw : 0 < bw.
Hypothesis Hbh : 0 < bh.
Hypothesis Hnw : gw <= nw * bw.

Let column (i j : nat) : nat := (i mod nw) * bw + j mod bw.
Let row (i j : nat) : nat := (i / nw) * bh + j / bw.

Lemma cell_block_of_place (i j : nat) :
  0 < nw -> j < bw * bh ->
  cell_block bw bh nw (column i j) (row i j) = (i, j).
Proof.
  intros Hnw0 Hj; unfold cell_block, column, row.
  assert (Hjm : j mod bw < bw) by (apply Nat.mod_upper_bound; lia).
  assert (Hjd : j / bw < bh) by (apply Nat.Div0.div_lt_upper_bound; lia).
  destruct (div_mod_pair _ (i mod nw) _ Hjm) as [-> ->].
  destruct (div_mod_pair _ (i / nw) _ Hjd) as [-> ->].
  f_equal.
  - pose proof (Nat.div_mod_eq i nw); lia.
  - pose proof (Nat.div_mod_eq j bw); lia.
Qed.

Lemma place_of_cell_block (x y : nat) :
  x < gw ->
  let '(i, j) := cell_block bw bh nw x y in
  column i j = x /\ row i j = y /\ j < bw * bh.
Proof.
  intros Hx; unfold cell_block, column, row.
  assert (Hxm : x mod bw < bw) by (apply Nat.mod_upper_bound; lia).
  assert (Hym : y mod bh < bh) by (apply Nat.mod_upper_bound; lia).
  assert (Hxd : x / bw < nw) by (apply Nat.Div0.div_lt_upper_bound; lia).
  destruct (div_mod_pair _ (y mod bh) _ Hxm) as [-> ->].
  destruct (div_mod_pair _ (y / bh) _ Hxd) as [-> ->].
  pose proof (Nat.div_mod_eq x bw); pose proof (Nat.div_mod_eq y bh).
  repeat split; nia.
Qed.

(** Whether cell [p] shows place [j] of block [i]. *)
Definition shows (p i j : nat) : bool :=
  let '(i', j') := cell_source gw bw bh nw p in (i' =? i) && (j' =? j).

(** The body of the inner loop: one write, if it falls in the grid. *)
Definition write (i j : nat) (e : Example) (g : Grid) : Grid :=
  if (column i j <? gw) && (row i j <? gh)
  then (set_cell (column i j + row i j * gw) (fst e) (fst g),
        set_cell (column i j + row i j * gw) (snd e) (snd g))
  else g.

Definition grid_sized (g : Grid) : Prop :=
  length (fst g) = gw * gh /\ length (snd g) = gw * gh.

Lemma write_sized (i j : nat) (e : Example) (g : Grid) :
  grid_sized g -> grid_sized (write i j e g).
Proof.
  intros [H1 H2]; unfold write.
  destruct ((column i j <? gw) && (row i j <? gh)); [ | split; assumption].
  split; simpl; rewrite set_cell_length; assumption.
Qed.

Lemma peek_write (i j p : nat) (e : Example) (g : Grid) :
  0 < nw -> j < bw * bh -> p < gw * gh -> grid_sized g ->
  peek (write i j e g) p = if shows p i j then e else peek g p.
Proof.
  intros Hnw0 Hj Hp [Hl1 Hl2].
  assert (Hgw : 0 < gw) by nia.
  assert (Hpx : p mod gw < gw) by (apply Nat.mod_upper_bound; lia).
  assert (Hpy : p / gw < gh) by (apply Nat.Div0.div_lt_upper_bound; lia).
  pose proof (place_of_cell_block _ (p / gw) Hpx) as Hback.
  unfold shows, cell_source, write.
  destruct (cell_block bw bh nw (p mod gw) (p / gw)) as [i' j'] eqn:Hcell.
  destruct Hback as (Hcol & Hrow & _).
  destruct (Nat.ltb_spec (column i j) gw) as [Hx | Hx]; simpl.
  - destruct (Nat.ltb_spec (row i j) gh) as [Hy | Hy]; simpl.
    + unfold peek; simpl.
      rewrite !nth_set_cell by nia.
      destruct (Nat.eqb_spec p (column i j + row i j * gw)) as [-> | Hne].
      * destruct (div_mod_pair _ (row i j) _ Hx) as [Hd Hm].
        rewrite Nat.add_comm, Hd, Hm, cell_block_of_place in Hcell
          by assumption.
        injection Hcell as <- <-; rewrite !Nat.eqb_refl; simpl.
        destruct e; reflexivity.
      * destruct (Nat.eqb_spec i' i) as [-> | ]; simpl; [ | reflexivity].
        destruct (Nat.eqb_spec j' j) as [-> | ]; simpl; [ | reflexivity].
        exfalso; apply Hne.
        pose proof (Nat.div_mod_eq p gw); nia.
    + destruct (Nat.eqb_spec i' i) as [-> | ]; simpl; [ | reflexivity].
      destruct (Nat.eqb_spec j' j) as [-> | ]; simpl; [ | reflexivity].
      lia.
  - destruct (Nat.eqb_spec i' i) as [-> | ]; simpl; [ | reflexivity].
    destruct (Nat.eqb_spec j' j) as [-> | ]; simpl; [ | reflexivity].
    lia.
Qed.

End Placement.

Section Placing.

Variables gw gh bw bh nw : nat.
Hypothesis Hbw : 0 < bw.
Hypothesis Hbh : 0 < bh.
Hypothesis Hnw : gw <= nw * bw.
Hypothesis Hnw0 : 0 < nw.

Lemma place_block_step (i j : nat) (e : Example) (rest : list Example)
  (g : Grid) :
  place_block gw gh bw bh nw i j (e :: rest) g
  = place_block gw gh bw bh nw i (S j) rest (write gw gh bw bh nw i j e g).
Proof. destruct e as [real label]; reflexivity. Qed.

Lemma place_block_sized (i j : nat) (block : list Example) (g : Grid) :
  grid_sized gw gh g -> grid_sized gw gh (place_block gw gh bw bh nw i j block g).
Proof.
  revert j g; induction block as [ | e rest IH]; intros j g Hg; [exact Hg | ].
  rewrite place_block_step; apply IH, write_sized, Hg.
Qed.

(** After the inner loop over a block from place [j0] on, a cell shows
    the entry of the block written to it, and is as before when none was. *)
Lemma peek_place_block (i j0 p : nat) (block : list Example) (g : Grid) :
  j0 + length block <= bw * bh -> p < gw * gh -> grid_sized gw gh g ->
  peek (place_block gw gh bw bh nw i j0 block g) p
  = match (let '(i', j') := cell_source gw bw bh nw p in
           if (i' =? i) && (j0 <=? j') then nth_error block (j' - j0)
           else None) with
    | Some e => e
    | None => peek g p
    end.
Proof.
  revert j0 g; induction block as [ | e rest IH]; intros j0 g Hlen Hp Hg.
  - destruct (cell_source gw bw bh nw p) as [i' j']; cbn [place_block].
    destruct ((i' =? i) && (j0 <=? j')); [ | reflexivity].
    destruct (j' - j0); reflexivity.
  - rewrite place_block_step; simpl in Hlen.
    rewrite IH by (try apply write_sized; auto; lia).
    rewrite peek_write by (auto; lia).
    unfold shows.
    destruct (cell_source gw bw bh nw p) as [i' j'].
    destruct (Nat.eqb_spec i' i) as [-> | Hi]; cbn [andb]; [ | reflexivity].
    destruct (Nat.leb_spec (S j0) j') as [Hlt | Hge].
    + destruct (Nat.leb_spec j0 j') as [_ | ?]; [ | lia].
      replace (j' - j0) with (S (j' - S j0)) by lia; cbn [nth_error].
      destruct (nth_error rest (j' - S j0)); [reflexivity | ].
      destruct (Nat.eqb_spec j' j0); [lia | reflexivity].
    + destruct (Nat.eqb_spec j' j0) as [-> | Hne].
      * rewrite Nat.leb_refl, Nat.sub_diag; reflexivity.
      * destruct (Nat.leb_spec j0 j'); [lia | reflexivity].
Qed.

Lemma place_blocks_sized (i : nat) (blocks : Blocks) (g : Grid) :
  grid_sized gw gh g ->
  grid_sized gw gh (place_blocks gw gh bw bh nw i blocks g).
Proof.
  revert i g; induction blocks as [ | b rest IH]; intros i g Hg; [exact Hg | ].
  simpl; apply IH, place_block_sized, Hg.
Qed.

Lemma peek_place_blocks (i0 p : nat) (blocks : Blocks) (g : Grid) :
  Forall (fun b => length b <= bw * bh) blocks ->
  p < gw * gh -> grid_sized gw gh g ->
  peek (place_blocks gw gh bw bh nw i0 blocks g) p
  = match (let '(i', j') := cell_source gw bw bh nw p in
           if i0 <=? i' then nth_error (nth (i' - i0) blocks []) j'
           else None) with
    | Some e => e
    | None => peek g p
    end.
Proof.
  revert i0 g; induction blocks as [ | b rest IH]; intros i0 g Hcap Hp Hg.
  - destruct (cell_source gw bw bh nw p) as [i' j']; cbn [place_blocks].
    destruct (i0 <=? i'); [ | reflexivity].
    destruct (i' - i0), j'; reflexivity.
  - cbn [place_blocks]; inversion_clear Hcap as [ | ? ? Hb Hrest].
    rewrite IH by (try apply place_block_sized; auto).
    rewrite peek_place_block by (auto; simpl; lia).
    destruct (cell_source gw bw bh nw p) as [i' j'].
    destruct (Nat.leb_spec (S i0) i') as [Hlt | Hge].
    + destruct (Nat.leb_spec i0 i') as [_ | ?]; [ | lia].
      replace (i' - i0) with (S (i' - S i0)) by lia; cbn [nth].
      destruct (nth_error (nth (i' - S i0) rest []) j'); [reflexivity | ].
      destruct (Nat.eqb_spec i' i0); [lia | reflexivity].
    + destruct (Nat.eqb_spec i' i0) as [-> | Hne]; cbn [andb].
      * rewrite Nat.leb_refl, Nat.sub_diag, Nat.sub_0_r; reflexivity.
      * destruct (Nat.leb_spec i0 i'); [lia | reflexivity].
Qed.

(** The grid after lines 380-386: a cell shows the entry of its place in
    its block when the block has one there, and is as before otherwise. *)
Lemma peek_placed (p : nat) (blocks : Blocks) (g : Grid) :
  within (bw * bh) blocks -> p < gw * gh -> grid_sized gw gh g ->
  peek (place_blocks gw gh bw bh nw 0 blocks g) p
  = match entry_at gw bw bh nw blocks p with
    | Some e => e
    | None => peek g p
    end.
Proof.
  intros Hw Hp Hg; rewrite peek_place_blocks; auto.
  - unfold entry_at; destruct (cell_source gw bw bh nw p) as [i' j'].
    cbn [Nat.leb]; rewrite Nat.sub_0_r; reflexivity.
  - apply Forall_forall; intros b Hb.
    destruct (In_nth _ _ [] Hb) as (i & _ & <-); apply Hw.
Qed.

End Placing.

(** *** The function as a whole *)

Lemma select_size_bounds (shp : list Z) (size : string) (gw gh : Z) :
  select_size shp size = Ret (gw, gh) ->
  (1 <= gw <= 32 /\ 1 <= gh <= 32)%Z.
Proof.
  assert (Hrow : forall (p q lw lh : Z) (g : Z * Z),
             (1 <= lw <= 32)%Z -> (1 <= lh <= 32)%Z ->
             (w0 <- getitem shp 2;; qw <- floordiv p w0;;
              h0 <- getitem shp 1;; qh <- floordiv q h0;;
              Ret (np_clip qw lw 32, np_clip qh lh 32)) = Ret g ->
             (1 <= fst g <= 32 /\ 1 <= snd g <= 32)%Z).
  { intros p q lw lh g Hlw Hlh H.
    apply bind_Ret_inv in H; destruct H as (w0 & _ & H).
    apply bind_Ret_inv in H; destruct H as (qw & _ & H).
    apply bind_Ret_inv in H; destruct H as (h0 & _ & H).
    apply bind_Ret_inv in H; destruct H as (qh & _ & H).
    injection H as <-; simpl; unfold np_clip; lia. }
  unfold select_size; intros H.
  apply bind_Ret_inv in H; destruct H as (g1 & H1 & H).
  apply bind_Ret_inv in H; destruct H as (g2 & H2 & H).
  apply bind_Ret_inv in H; destruct H as (g3 & H3 & H).
  injection H as ->.
  assert (B1 : (1 <= fst g1 <= 32 /\ 1 <= snd g1 <= 32)%Z).
  { destruct (size =? "1080p")%string;
      [eapply Hrow; [ | | exact H1]; lia | injection H1 as <-; simpl; lia]. }
  assert (B2 : (1 <= fst g2 <= 32 /\ 1 <= snd g2 <= 32)%Z).
  { destruct (size =? "4k")%string;
      [eapply Hrow; [ | | exact H2]; lia | injection H2 as <-; exact B1]. }
  destruct (size =? "8k")%string.
  - apply (Hrow 7680%Z 4320%Z 7%Z 4%Z (gw, gh)); [lia | lia | exact H3].
  - injection H3 as ->; exact B2.
Qed.

Lemma blocks_cover (g b : nat) : 0 < b -> 0 < g -> g <= ((g - 1) / b + 1) * b.
Proof.
  intros Hb Hg; pose proof (Nat.div_mod_eq (g - 1) b).
  pose proof (Nat.mod_upper_bound (g - 1) b); nia.
Qed.

Lemma class_layouts_dims (gw gh : nat) (layout : string) (bw bh : nat) :
  class_layouts gw gh layout = Some (bw, bh) ->
  (layout = "row_per_class"%string /\ bw = gw /\ bh = 1)
  \/ (layout = "col_per_class"%string /\ bw = 1 /\ bh = gh)
  \/ (layout = "class4x4"%string /\ bw = 4 /\ bh = 4).
Proof.
  unfold class_layouts.
  destruct (String.eqb_spec layout "row_per_class");
    [intros [= <- <-]; auto | ].
  destruct (String.eqb_spec layout "col_per_class");
    [intros [= <- <-]; auto | ].
  destruct (String.eqb_spec layout "class4x4");
    [intros [= <- <-]; auto | discriminate].
Qed.

Lemma class_layouts_positive (gw gh : nat) (layout : string) (bw bh : nat) :
  0 < gw -> 0 < gh ->
  class_layouts gw gh layout = Some (bw, bh) -> 0 < bw /\ 0 < bh.
Proof.
  intros Hgw Hgh H; apply class_layouts_dims in H.
  destruct H as [(_ & -> & ->) | [(_ & -> & ->) | (_ & -> & ->)]]; lia.
Qed.

Lemma class_layouts_not_random (gw gh : nat) (layout : string) (bw bh : nat) :
  class_layouts gw gh layout = Some (bw, bh) ->
  (layout =? "random")%string = false.
Proof.
  intros H; apply class_layouts_dims in H.
  destruct H as [(-> & _) | [(-> & _) | (-> & _)]]; reflexivity.
Qed.

(** The blocks of a grid of at most 32 by 32 cells hold at most 1024
    examples together. *)
Lemma class_layouts_room (gw gh : nat) (layout : string) (bw bh : nat) :
  0 < gw <= 32 -> 0 < gh <= 32 ->
  class_layouts gw gh layout = Some (bw, bh) ->
  ((gw - 1) / bw + 1) * ((gh - 1) / bh + 1) * (bw * bh) <= 1024.
Proof.
  intros Hgw Hgh H; apply class_layouts_dims in H.
  assert (Hcells : gw * gh <= 32 * 32) by (apply Nat.mul_le_mono; lia).
  destruct H as [(_ & -> & ->) | [(_ & -> & ->) | (_ & -> & ->)]].
  - rewrite (Nat.div_small (gw - 1) gw), Nat.div_1_r by lia.
    replace ((0 + 1) * (gh - 1 + 1) * (gw * 1)) with (gw * gh) by nia.
    exact Hcells.
  - rewrite (Nat.div_small (gh - 1) gh), Nat.div_1_r by lia.
    replace ((gw - 1 + 1) * (0 + 1) * (1 * gh)) with (gw * gh) by nia.
    exact Hcells.
  - assert (Hw : (gw - 1) / 4 + 1 <= 8)
      by (pose proof (Nat.Div0.div_lt_upper_bound (gw - 1) 4 8); lia).
    assert (Hh : (gh - 1) / 4 + 1 <= 8)
      by (pose proof (Nat.Div0.div_lt_upper_bound (gh - 1) 4 8); lia).
    pose proof (Nat.mul_le_mono _ _ _ _ Hw Hh); lia.
Qed.

(** The function on a class-balanced layout, in terms of its loops. *)
Lemma setup_class_layout (ts : TrainingSet) (size layout : string)
  (gwz ghz : Z) (bw bh : nat) :
  select_size (shape ts) size = Ret (gwz, ghz) ->
  class_layouts (Z.to_nat gwz) (Z.to_nat ghz) layout = Some (bw, bh) ->
  setup_with_draws ts size layout
  = ('(g, n) <- class_layout ts (Z.to_nat gwz) (Z.to_nat ghz) bw bh
                  (repeat (zeros_image (shape ts))
                          (Z.to_nat gwz * Z.to_nat ghz),
                   repeat (zeros_label (label_size ts))
                          (Z.to_nat gwz * Z.to_nat ghz));;
     Ret ((gwz, ghz), fst g, snd g, n)).
Proof.
  intros Hsize Hlayout; unfold setup_with_draws.
  rewrite Hsize; cbn [bind].
  rewrite (class_layouts_not_random _ _ _ _ _ Hlayout), Hlayout.
  reflexivity.
Qed.

Lemma setup_of_with_draws (ts : TrainingSet) (size layout : string)
  (g : Z * Z) (reals : list Image) (labels : list Label) (n : nat) :
  setup_with_draws ts size layout = Ret (g, reals, labels, n) ->
  setup_snapshot_image_grid ts size layout = Ret (g, reals, labels).
Proof.
  intros H; unfold setup_snapshot_image_grid; rewrite H; reflexivity.
Qed.

Lemma max_draws_value : Z.of_nat max_draws = 1000000%Z.
Proof. unfold max_draws; apply Z2Nat.id; lia. Qed.

Lemma fill_within (ts : TrainingSet) (cap pos t : nat) (blocks b : Blocks) :
  fill ts cap pos t blocks = Ret b ->
  within cap blocks -> within cap b /\ length b = length blocks.
Proof.
  revert pos blocks; induction t as [ | t IH]; intros pos blocks; simpl.
  - intros [= <-]; auto.
  - intros H Hw.
    apply bind_Ret_inv in H; destruct H as ([b1 a] & Hplace & H).
    destruct (IH _ _ H (place_example_within _ _ _ _ _ _ Hplace Hw)) as [Hw' ->].
    split; [exact Hw' | eapply place_example_length; eassumption].
Qed.

Lemma all_full_empty (cap n : nat) :
  0 < cap -> 0 < n -> all_full cap (repeat [] n) = false.
Proof.
  intros Hcap Hn; destruct n as [ | n]; [lia | ].
  simpl; destruct (Nat.leb_spec cap 0); [lia | reflexivity].
Qed.

Lemma peek_zeros (zi : Image) (zl : Label) (n p : nat) :
  p < n -> peek (repeat zi n, repeat zl n) p = (zi, zl).
Proof.
  intros Hp; unfold peek; simpl; rewrite !nth_repeat_lt by assumption.
  reflexivity.
Qed.

(** What the function returns on a class-balanced layout once its
    sampling loop has returned [blocks] after [drawn] draws. *)
Lemma setup_class_layout_result (ts : TrainingSet) (size layout : string)
  (gwz ghz : Z) (bw bh : nat) (blocks : Blocks) (drawn : nat) :
  let gw := Z.to_nat gwz in
  let gh := Z.to_nat ghz in
  let nw := (gw - 1) / bw + 1 in
  let nh := (gh - 1) / bh + 1 in
  select_size (shape ts) size = Ret (gwz, ghz) ->
  class_layouts gw gh layout = Some (bw, bh) ->
  draw_loop ts (bw * bh) max_draws 0 (repeat [] (nw * nh))
  = Ret (blocks, drawn) ->
  exists (reals : list Image) (labels : list Label),
    setup_with_draws ts size layout = Ret ((gwz, ghz), reals, labels, drawn)
    /\ length reals = gw * gh /\ length labels = gw * gh
    /\ forall p, p < gw * gh ->
         (nth p reals [], nth p labels [])
         = match entry_at gw bw bh nw blocks p with
           | Some e => e
           | None => (zeros_image (shape ts), zeros_label (label_size ts))
           end.
Proof.
  intros gw gh nw nh Hsize Hlayout Hloop.
  destruct (select_size_bounds _ _ _ _ Hsize) as [Hgw Hgh].
  destruct (class_layouts_positive gw gh layout bw bh
              ltac:(subst gw; lia) ltac:(subst gh; lia) Hlayout)
    as [Hbw Hbh].
  assert (Hnb : 0 < nw * nh) by (subst nw nh; nia).
  assert (Hcap : 0 < bw * bh) by nia.
  destruct (draw_loop_spec _ _ _ _ _ _ _ Hloop (all_full_empty _ _ Hcap Hnb))
    as (t & _ & Ht & Hfill & _); simpl in Ht; subst t.
  destruct (fill_within _ _ _ _ _ _ Hfill (within_empty _ _)) as [Hw _].
  set (g0 := (repeat (zeros_image (shape ts)) (gw * gh),
              repeat (zeros_label (label_size ts)) (gw * gh))).
  assert (Hg0 : grid_sized gw gh g0)
    by (split; simpl; apply repeat_length).
  set (g := place_blocks gw gh bw bh nw 0 blocks g0).
  exists (fst g), (snd g).
  destruct (place_blocks_sized gw gh bw bh nw 0 blocks g0 Hg0) as [Hl1 Hl2].
  split; [ | split; [exact Hl1 | split; [exact Hl2 | ]]].
  - rewrite (setup_class_layout _ _ _ _ _ _ _ Hsize Hlayout).
    unfold class_layout; fold gw gh nw nh; rewrite Hloop; reflexivity.
  - intros p Hp.
    assert (Hcover : gw <= nw * bw)
      by (subst nw; apply blocks_cover; [exact Hbw | subst gw; lia]).
    pose proof (peek_placed gw gh bw bh nw Hbw Hbh Hcover
                  ltac:(subst nw; lia) p blocks g0 Hw Hp Hg0) as Hpeek.
    fold g in Hpeek; unfold peek at 1 in Hpeek; rewrite Hpeek.
    destruct (entry_at gw bw bh nw blocks p); [reflexivity | ].
    apply peek_zeros, Hp.
Qed.

Lemma setup_returns (ts : TrainingSet) (size layout : string) (gwz ghz : Z) :
  select_size (shape ts) size = Ret (gwz, ghz) ->
  class_layouts (Z.to_nat gwz) (Z.to_nat ghz) layout = None \/ well_formed ts ->
  exists (reals : list Image) (labels : list Label),
    setup_snapshot_image_grid ts size layout = Ret ((gwz, ghz), reals, labels).
Proof.
  intros Hsize Hcase.
  destruct (class_layouts (Z.to_nat gwz) (Z.to_nat ghz) layout)
    as [[bw bh] | ] eqn:Hlayout.
  - destruct Hcase as [? | Hwf]; [discriminate | ].
    destruct (draw_loop_returns ts (bw * bh) max_draws 0
                (repeat [] (((Z.to_nat gwz - 1) / bw + 1)
                            * ((Z.to_nat ghz - 1) / bh + 1))) Hwf)
      as [[blocks drawn] Hloop].
    destruct (setup_class_layout_result ts size layout gwz ghz bw bh blocks
                drawn Hsize Hlayout Hloop) as (reals & labels & H & _).
    exists reals, labels; eapply setup_of_with_draws; exact H.
  - unfold setup_snapshot_image_grid, setup_with_draws.
    rewrite Hsize; cbn [bind]; rewrite Hlayout.
    destruct (layout =? "random")%string; cbn [bind]; eauto.
Qed.

Lemma setup_size (ts : TrainingSet) (size layout : string) (g g' : Z * Z)
  (reals : list Image) (labels : list Label) :
  select_size (shape ts) size = Ret g ->
  setup_snapshot_image_grid ts size layout = Ret (g', reals, labels) ->
  g' = g.
Proof.
  intros Hsize; destruct g as [gwz ghz].
  unfold setup_snapshot_image_grid, setup_with_draws.
  rewrite Hsize; cbn [bind].
  destruct (layout =? "random")%string;
    destruct (class_layouts (Z.to_nat gwz) (Z.to_nat ghz) layout)
      as [[bw bh] | ]; cbn [bind];
    try (intros [= <- _ _]; reflexivity);
    (destruct (class_layout ts (Z.to_nat gwz) (Z.to_nat ghz) bw bh _)
       as [[gr n] | | ]; cbn [bind]; [ | discriminate | discriminate]);
    intros [= <- _ _]; reflexivity.
Qed.

(** C3: for images of positive height and width the grid size of
    [setup_snapshot_image_grid] is the preset's pixel size divided by the
    image size, in whole numbers, and clamped to the preset's bounds:
    3..32 by 2..32 for '1080p', 7..32 by 4..32 for '4k' and '8k'.  For
    any other size it is 1 by 1, so neither side is ever below 1.  This
    is the size in every result the function returns, and it does return
    one when the layout is not class-balanced or the labels of the
    source are well formed. *)
Theorem grid_size_clamped (ts : TrainingSet) (size layout : string) (h w : Z) :
  nth_error (shape ts) 1 = Some h -> nth_error (shape ts) 2 = Some w ->
  (0 < h)%Z -> (0 < w)%Z ->
  exists gw gh : Z,
    select_size (shape ts) size = Ret (gw, gh)
    /\ (forall g reals labels,
          setup_snapshot_image_grid ts size layout = Ret (g, reals, labels) ->
          g = (gw, gh))
    /\ (class_layouts (Z.to_nat gw) (Z.to_nat gh) layout = None
        \/ well_formed ts ->
        exists reals labels,
          setup_snapshot_image_grid ts size layout
          = Ret ((gw, gh), reals, labels))
    /\ (1 <= gw /\ 1 <= gh)%Z
    /\ (size = "1080p"%string ->
        gw = np_clip (1920 / w) 3 32 /\ gh = np_clip (1080 / h) 2 32
        /\ 3 <= gw <= 32 /\ 2 <= gh <= 32)%Z
    /\ (size = "4k"%string ->
        gw = np_clip (3840 / w) 7 32 /\ gh = np_clip (2160 / h) 4 32
        /\ 7 <= gw <= 32 /\ 4 <= gh <= 32)%Z
    /\ (size = "8k"%string ->
        gw = np_clip (7680 / w) 7 32 /\ gh = np_clip (4320 / h) 4 32
        /\ 7 <= gw <= 32 /\ 4 <= gh <= 32)%Z
    /\ (size <> "1080p"%string -> size <> "4k"%string ->
        size <> "8k"%string -> gw = 1 /\ gh = 1)%Z.
Proof.
  intros Hh Hw Hhpos Hwpos.
  pose proof (select_size_preset (shape ts) size h w Hh Hw Hhpos Hwpos) as Hsel.
  destruct (preset_size size h w) as [gw gh] eqn:Hpre.
  exists gw, gh.
  split; [exact Hsel | ].
  split; [intros g reals labels H; exact (setup_size _ _ _ _ _ _ _ Hsel H) | ].
  split; [exact (setup_returns ts size layout gw gh Hsel) | ].
  split; [destruct (select_size_bounds _ _ _ _ Hsel); lia | ].
  unfold preset_size in Hpre.
  split; [ | split; [ | split]].
  - intros ->; simpl in Hpre; injection Hpre as <- <-.
    unfold np_clip; lia.
  - intros ->; simpl in Hpre; injection Hpre as <- <-.
    unfold np_clip; lia.
  - intros ->; simpl in Hpre; injection Hpre as <- <-.
    unfold np_clip; lia.
  - intros H1 H2 H3.
    destruct (String.eqb_spec size "1080p"); [contradiction | ].
    destruct (String.eqb_spec size "4k"); [contradiction | ].
    destruct (String.eqb_spec size "8k"); [contradiction | ].
    injection Hpre as <- <-; auto.
Qed.

(** A source of two classes that alternate, with images of 512 by 512. *)
Definition alternating : TrainingSet :=
  {| shape := [3; 512; 512]%Z;
     label_size := 2;
     examples := fun t =>
       match t mod 2 with
       | O => ([0%Z], [1; 0]%Z)
       | S _ => ([1%Z], [0; 1]%Z)
       end |}.

Lemma grid_size_clamped_witness :
  (0 < 512)%Z
  /\ exists gw gh : Z,
       select_size (shape alternating) "4k" = Ret (gw, gh)
       /\ (7 <= gw <= 32 /\ 4 <= gh <= 32)%Z.
Proof.
  split; [lia | ].
  destruct (grid_size_clamped alternating "4k" "random" 512 512
              eq_refl eq_refl ltac:(lia) ltac:(lia))
    as (gw & gh & Hsel & _ & _ & _ & _ & H4k & _).
  exists gw, gh; split; [exact Hsel | ].
  destruct (H4k eq_refl) as (_ & _ & Hgw & Hgh); split; assumption.
Defined.



(** *** Where the entries of the blocks come from *)

(** Every entry of a block is an example drawn before position [T], of
    a class [c] from which the block is [m] advances away. *)
Definition sourced (ts : TrainingSet) (T : nat) (blocks : Blocks) : Prop :=
  forall i j e,
    nth_error (nth i blocks []) j = Some e ->
    exists t c m,
      t < T /\ e = examples ts t /\ np_argmax (snd e) = Ret c
      /\ i = c + m * label_size ts /\ i < length blocks.

Lemma sourced_empty (ts : TrainingSet) (n : nat) : sourced ts 0 (repeat [] n).
Proof.
  intros i j e H; exfalso.
  assert (Hnil : nth i (repeat ([] : list Example) n) [] = []).
  { destruct (Nat.lt_ge_cases i n).
    - apply nth_repeat_lt; assumption.
    - apply nth_overflow; rewrite repeat_length; assumption. }
  rewrite Hnil in H; destruct j; discriminate.
Qed.

Lemma place_example_sourced (ts : TrainingSet) (cap pos : nat)
  (blocks blocks' : Blocks) (appended : bool) :
  place_example (label_size ts) cap (examples ts pos) blocks
  = Ret (blocks', appended) ->
  sourced ts pos blocks -> sourced ts (S pos) blocks'.
Proof.
  intros H Hs; apply place_example_spec in H.
  destruct H as (c & idx & Hc & Hidx & [(_ & Hlt & ->) | (_ & _ & ->)]).
  - apply next_free_spec in Hidx; destruct Hidx as (m & -> & _ & _).
    intros i j e; rewrite nth_append_at by assumption.
    rewrite append_at_length.
    destruct (Nat.eqb_spec i (c + m * label_size ts)) as [-> | Hne].
    + intros H.
      destruct (Nat.lt_ge_cases j
                  (length (nth (c + m * label_size ts) blocks []))) as [Hj | Hj].
      * rewrite nth_error_app1 in H by assumption.
        destruct (Hs _ _ _ H) as (t & c' & m' & Ht & Hrest).
        exists t, c', m'; split; [lia | exact Hrest].
      * rewrite nth_error_app2 in H by assumption.
        destruct (j - length (nth (c + m * label_size ts) blocks []))
          as [ | [ | ]]; try discriminate.
        injection H as <-.
        exists pos, c, m; repeat split; auto.
    + intros H; destruct (Hs _ _ _ H) as (t & c' & m' & Ht & Hrest).
      exists t, c', m'; split; [lia | exact Hrest].
  - intros i j e H; destruct (Hs _ _ _ H) as (t & c' & m' & Ht & Hrest).
    exists t, c', m'; split; [lia | exact Hrest].
Qed.

Lemma fill_sourced (ts : TrainingSet) (cap pos t : nat) (blocks b : Blocks) :
  fill ts cap pos t blocks = Ret b ->
  sourced ts pos blocks -> sourced ts (pos + t) b.
Proof.
  revert pos blocks; induction t as [ | t IH]; intros pos blocks; simpl.
  - intros [= <-]; rewrite Nat.add_0_r; auto.
  - intros H Hs.
    apply bind_Ret_inv in H; destruct H as ([b1 a] & Hplace & H).
    replace (pos + S t) with (S pos + t) by lia.
    apply (IH _ _ H), (place_example_sourced _ _ _ _ _ _ Hplace Hs).
Qed.

(** An example of a class past the last block goes to no block. *)
Lemma place_example_past (k cap : nat) (e : Example) (blocks : Blocks)
  (c : nat) :
  np_argmax (snd e) = Ret c -> length blocks <= c ->
  place_example k cap e blocks = Ret (blocks, false).
Proof.
  intros Hc Hlen; unfold place_example; rewrite Hc; cbn [bind].
  unfold next_free; simpl.
  destruct (Nat.ltb_spec c (length blocks)) as [? | _]; [lia | ].
  simpl; destruct (Nat.ltb_spec c (length blocks)); [lia | reflexivity].
Qed.

Lemma setup_class_layout_inv (ts : TrainingSet) (size layout : string)
  (gwz ghz : Z) (bw bh : nat) (g : Z * Z) (reals : list Image)
  (labels : list Label) :
  select_size (shape ts) size = Ret (gwz, ghz) ->
  class_layouts (Z.to_nat gwz) (Z.to_nat ghz) layout = Some (bw, bh) ->
  setup_snapshot_image_grid ts size layout = Ret (g, reals, labels) ->
  exists blocks drawn,
    draw_loop ts (bw * bh) max_draws 0
      (repeat [] (((Z.to_nat gwz - 1) / bw + 1)
                  * ((Z.to_nat ghz - 1) / bh + 1)))
    = Ret (blocks, drawn)
    /\ setup_with_draws ts size layout = Ret (g, reals, labels, drawn).
Proof.
  intros Hsize Hlayout H.
  unfold setup_snapshot_image_grid in H.
  apply bind_Ret_inv in H; destruct H as ([[[g' r'] l'] n] & Hd & H).
  injection H as -> -> ->.
  pose proof Hd as Hd'.
  rewrite (setup_class_layout _ _ _ _ _ _ _ Hsize Hlayout) in Hd'.
  apply bind_Ret_inv in Hd'; destruct Hd' as ([gr n'] & Hcl & Hd').
  unfold class_layout in Hcl.
  apply bind_Ret_inv in Hcl; destruct Hcl as ([blocks drawn] & Hloop & Hcl).
  injection Hcl as _ <-; injection Hd' as _ _ _ <-.
  exists blocks, drawn; split; assumption.
Qed.

(** C10: on a class-balanced layout an example whose class index (the
    argmax of its label) is [nw * nh], the number of blocks, or more is
    put in no block: the blocks are as before the draw.  So a cell of
    the returned grid holds the zeros it was initialized with, or an
    example drawn from the source whose class [c] is below [nw * nh],
    and the block the cell belongs to is [c + m * label_size] for some
    [m]: it is the class's own block or one reached from it by the
    advance, never the block of a higher class. *)
Theorem class_past_blocks_dropped (ts : TrainingSet) (size layout : string)
  (gwz ghz : Z) (bw bh : nat) :
  let gw := Z.to_nat gwz in
  let gh := Z.to_nat ghz in
  let nw := (gw - 1) / bw + 1 in
  let nh := (gh - 1) / bh + 1 in
  select_size (shape ts) size = Ret (gwz, ghz) ->
  class_layouts gw gh layout = Some (bw, bh) ->
  (forall (e : Example) (blocks : Blocks) (c : nat),
      length blocks = nw * nh ->
      np_argmax (snd e) = Ret c -> nw * nh <= c ->
      place_example (label_size ts) (bw * bh) e blocks = Ret (blocks, false))
  /\ (forall g reals labels,
        setup_snapshot_image_grid ts size layout = Ret (g, reals, labels) ->
        forall p, p < gw * gh ->
          (nth p reals [], nth p labels [])
          = (zeros_image (shape ts), zeros_label (label_size ts))
          \/ exists t c m,
               (nth p reals [], nth p labels []) = examples ts t
               /\ np_argmax (snd (examples ts t)) = Ret c
               /\ c < nw * nh
               /\ fst (cell_source gw bw bh nw p) = c + m * label_size ts).
Proof.
  intros gw gh nw nh Hsize Hlayout; split.
  - intros e blocks c Hlen Hc Hpast.
    apply place_example_past with c; [exact Hc | lia].
  - intros g reals labels Hret p Hp.
    destruct (setup_class_layout_inv _ _ _ _ _ _ _ _ _ _ Hsize Hlayout Hret)
      as (blocks & drawn & Hloop & Hd).
    destruct (setup_class_layout_result ts size layout gwz ghz bw bh blocks
                drawn Hsize Hlayout Hloop)
      as (reals' & labels' & Hd' & _ & _ & Hcells).
    rewrite Hd in Hd'; injection Hd' as _ <- <-.
    rewrite (Hcells p Hp).
    destruct (select_size_bounds _ _ _ _ Hsize) as [Hgw Hgh].
    destruct (class_layouts_positive gw gh layout bw bh
                ltac:(subst gw; lia) ltac:(subst gh; lia) Hlayout)
      as [Hbw Hbh].
    assert (Hnb : 0 < nw * nh) by (subst nw nh; nia).
    assert (Hcap : 0 < bw * bh) by nia.
    destruct (draw_loop_spec _ _ _ _ _ _ _ Hloop
                (all_full_empty _ _ Hcap Hnb))
      as (t & _ & _ & Hfill & _).
    pose proof (fill_sourced _ _ _ _ _ _ Hfill (sourced_empty ts _)) as Hs.
    destruct (fill_within _ _ _ _ _ _ Hfill (within_empty _ _)) as [_ Hlen].
    rewrite repeat_length in Hlen; change (length blocks = nw * nh) in Hlen.
    change (entry_at (Z.to_nat gwz) bw bh ((Z.to_nat gwz - 1) / bw + 1)
              blocks p) with (entry_at gw bw bh nw blocks p).
    unfold entry_at.
    destruct (cell_source gw bw bh nw p) as [i j] eqn:Hcell.
    destruct (nth_error (nth i blocks []) j) as [e | ] eqn:He; [right | left].
    + destruct (Hs _ _ _ He) as (t0 & c & m & _ & -> & Hc & Hi & Hlt).
      exists t0, c, m.
      split; [reflexivity | split; [exact Hc | split; [lia | exact Hi]]].
    + reflexivity.
Qed.

Lemma class_past_blocks_dropped_witness :
  select_size (shape alternating) "1080p" = Ret (3, 2)%Z
  /\ place_example (label_size alternating) (3 * 1) ([7%Z], [0; 0; 1]%Z)
       [[]; []]
     = Ret ([[]; []], false).
Proof.
  split; [reflexivity | ].
  exact (proj1 (class_past_blocks_dropped alternating "1080p" "row_per_class"
                  3 2 3 1 eq_refl eq_refl)
           ([7%Z], [0; 0; 1]%Z) [[]; []] 2 eq_refl eq_refl (le_n 2)).
Defined.

(** *** A source whose labels name one class each *)

Section Balanced.

Variable ts : TrainingSet.
Variable cls : nat -> nat.
Variables cap nb : nat.

Hypothesis Hk : 0 < label_size ts.
Hypothesis Hcls : forall t, np_argmax (snd (examples ts t)) = Ret (cls t).
Hypothesis Hlt : forall t, cls t < label_size ts.

(** How many of the first [T] draws are of class [c]. *)
Definition drawn_of (c T : nat) : nat :=
  count_occ Nat.eq_dec (map cls (seq 0 T)) c.

Lemma drawn_of_S (c T : nat) :
  drawn_of c (S T) = drawn_of c T + (if cls T =? c then 1 else 0).
Proof using Type.
  unfold drawn_of; rewrite seq_S, map_app, count_occ_app; simpl.
  destruct (Nat.eq_dec (cls T) c) as [-> | Hne].
  - rewrite Nat.eqb_refl; reflexivity.
  - destruct (Nat.eqb_spec (cls T) c); [contradiction | reflexivity].
Qed.

(** The blocks a class reaches fill one after the other: block [i] has
    what is left of the draws of its class [i mod label_size] after the
    [i / label_size] blocks before it took [cap] each. *)
Definition ordered_fill (T : nat) (blocks : Blocks) : Prop :=
  length blocks = nb
  /\ forall i, i < nb ->
       block_len blocks i
       = Nat.min cap (drawn_of (i mod label_size ts) T
                      - (i / label_size ts) * cap).

Lemma ordered_fill_empty : ordered_fill 0 (repeat [] nb).
Proof using Hk.
  split; [apply repeat_length | ].
  intros i Hi; unfold block_len; rewrite nth_repeat_lt by assumption.
  unfold drawn_of; simpl; lia.
Qed.

Lemma bucket_div_mod (c m : nat) :
  c < label_size ts ->
  (c + m * label_size ts) / label_size ts = m
  /\ (c + m * label_size ts) mod label_size ts = c.
Proof using Type.
  intros Hc; rewrite (Nat.add_comm c); apply div_mod_pair, Hc.
Qed.

Lemma place_example_ordered (T : nat) (blocks blocks' : Blocks)
  (appended : bool) :
  place_example (label_size ts) cap (examples ts T) blocks
  = Ret (blocks', appended) ->
  ordered_fill T blocks -> ordered_fill (S T) blocks'.
Proof using Hk Hcls Hlt.
  intros H [Hlen Hfill]; apply place_example_spec in H.
  destruct H as (c & idx & Hc & Hidx & Hcase).
  rewrite Hcls in Hc; injection Hc as <-.
  pose proof (Hlt T) as HcK.
  set (c := cls T) in *; set (K := label_size ts) in *.
  set (n := drawn_of c T).
  apply next_free_spec in Hidx.
  destruct Hidx as (m & -> & Hpass & Hstop); rewrite Hlen in *.
  (* the blocks passed are full: the class has [cap] draws for each *)
  assert (Hpassed : forall m', m' < m ->
            c + m' * K < nb /\ (m' + 1) * cap <= n \/ cap = 0).
  { intros m' Hm'; destruct (Hpass m' Hm') as [Hin Hfull].
    rewrite (Hfill _ Hin) in Hfull.
    destruct (bucket_div_mod c m' HcK) as [Hd Hm].
    fold K in Hd, Hm; rewrite Hd, Hm in Hfull; fold n in Hfull.
    destruct (Nat.eq_dec cap 0); [right; assumption | left; nia]. }
  assert (Hblock : forall i, i < nb ->
            i = i mod K + (i / K) * K /\ i mod K < K).
  { intros i _; pose proof (Nat.div_mod_eq i K).
    pose proof (Nat.mod_upper_bound i K); nia. }
  destruct Hcase as [(_ & Hin & ->) | (_ & Hout & ->)].
  - split; [rewrite append_at_length; exact Hlen | ].
    intros i Hi; rewrite block_len_append_at by lia.
    rewrite drawn_of_S; fold c K.
    specialize (Hstop Hin); rewrite (Hfill _ Hin) in Hstop.
    destruct (bucket_div_mod c m HcK) as [Hd Hm].
    fold K in Hd, Hm; rewrite Hd, Hm in Hstop; fold n in Hstop.
    assert (Hcap : 0 < cap) by lia.
    assert (Hlow : m * cap <= n).
    { destruct m as [ | m']; [lia | ].
      destruct (Hpassed m' ltac:(lia)) as [[_ ?] | ?]; lia. }
    destruct (Nat.eqb_spec i (c + m * K)) as [-> | Hne].
    + rewrite (Hfill _ Hin); fold K; rewrite Hd, Hm, Nat.eqb_refl.
      fold n; lia.
    + rewrite (Hfill _ Hi); fold K.
      destruct (Hblock i Hi) as [Hsplit HmodK].
      destruct (Nat.eqb_spec c (i mod K)) as [Heq | _];
        [ | rewrite Nat.add_0_r; reflexivity].
      rewrite <- Heq in *; fold n.
      destruct (Nat.lt_total (i / K) m) as [Hlo | [Hsame | Hhi]].
      * destruct (Hpassed (i / K) Hlo) as [[_ ?] | ?]; [nia | lia].
      * exfalso; apply Hne; rewrite <- Hsame; exact Hsplit.
      * assert ((m + 1) * cap <= (i / K) * cap) by nia.
        lia.
  - split; [exact Hlen | ].
    intros i Hi; rewrite (Hfill _ Hi), drawn_of_S; fold c K.
    destruct (Hblock i Hi) as [Hsplit HmodK].
    destruct (Nat.eqb_spec c (i mod K)) as [Heq | _];
      [ | rewrite Nat.add_0_r; reflexivity].
    rewrite <- Heq in *; fold n.
    assert (Hlo : i / K < m) by nia.
    destruct (Hpassed (i / K) Hlo) as [[_ ?] | ?]; [nia | lia].
Qed.

Lemma fill_ordered (pos t : nat) (blocks b : Blocks) :
  fill ts cap pos t blocks = Ret b ->
  ordered_fill pos blocks -> ordered_fill (pos + t) b.
Proof using Hk Hcls Hlt.
  revert pos blocks; induction t as [ | t IH]; intros pos blocks; simpl.
  - intros [= <-]; rewrite Nat.add_0_r; auto.
  - intros H Ho.
    apply bind_Ret_inv in H; destruct H as ([b1 a] & Hplace & H).
    replace (pos + S t) with (S pos + t) by lia.
    apply (IH _ _ H), (place_example_ordered _ _ _ _ Hplace Ho).
Qed.

Lemma fill_returns (pos t : nat) (blocks : Blocks) :
  exists b, fill ts cap pos t blocks = Ret b.
Proof using Hk Hcls.
  revert pos blocks; induction t as [ | t IH]; intros pos blocks; simpl;
    [eauto | ].
  unfold place_example; rewrite Hcls; cbn [bind].
  destruct (next_free_returns (label_size ts) cap blocks (cls pos) Hk)
    as [i ->]; cbn [bind].
  destruct (i <? length blocks); cbn [bind]; apply IH.
Qed.

Lemma ordered_fill_full (T : nat) (blocks : Blocks) :
  ordered_fill T blocks ->
  (forall i, i < nb ->
     (i / label_size ts + 1) * cap <= drawn_of (i mod label_size ts) T) ->
  all_full cap blocks = true.
Proof using Hk.
  intros [Hlen Hfill] Hdrawn; apply all_full_true.
  intros i Hi; rewrite Hlen in Hi.
  rewrite (Hfill i Hi); specialize (Hdrawn i Hi); nia.
Qed.

End Balanced.

(** *** A source that cycles through its classes *)

(** The one-hot label of class [c] among [k]. *)
Definition one_hot (k c : nat) : Label :=
  map (fun i => if i =? c then 1%Z else 0%Z) (seq 0 k).

Lemma argmax_from_found (c besti i n : nat) :
  argmax_from 1 besti i
    (map (fun j => if j =? c then 1%Z else 0%Z) (seq i n)) = besti.
Proof.
  revert i; induction n as [ | n IH]; intros i; simpl; [reflexivity | ].
  destruct (i =? c); simpl; apply IH.
Qed.

Lemma argmax_from_search (c besti i n : nat) :
  argmax_from 0 besti i
    (map (fun j => if j =? c then 1%Z else 0%Z) (seq i n))
  = if (i <=? c) && (c <? i + n) then c else besti.
Proof.
  revert i besti; induction n as [ | n IH]; intros i besti; simpl.
  - destruct (Nat.leb_spec i c), (Nat.ltb_spec c (i + 0)); simpl; auto; lia.
  - destruct (Nat.eqb_spec i c) as [-> | Hne]; simpl.
    + rewrite argmax_from_found.
      destruct (Nat.leb_spec c c), (Nat.ltb_spec c (c + S n)); simpl; auto; lia.
    + rewrite IH.
      destruct (Nat.leb_spec (S i) c), (Nat.ltb_spec c (S i + n)),
        (Nat.leb_spec i c), (Nat.ltb_spec c (i + S n)); simpl; auto; lia.
Qed.

Lemma np_argmax_one_hot (k c : nat) : c < k -> np_argmax (one_hot k c) = Ret c.
Proof.
  intros Hc; destruct k as [ | k]; [lia | ].
  unfold one_hot; simpl.
  destruct c as [ | c]; simpl.
  - rewrite argmax_from_found; reflexivity.
  - rewrite argmax_from_search.
    destruct (Nat.leb_spec 1 (S c)); [ | lia].
    destruct (Nat.ltb_spec (S c) (1 + k)); [reflexivity | lia].
Qed.

Lemma one_hot_not_zeros (k c : nat) : c < k -> one_hot k c <> zeros_label k.
Proof.
  intros Hc E.
  assert (H : In 1%Z (one_hot k c)).
  { apply in_map_iff; exists c; rewrite Nat.eqb_refl.
    split; [reflexivity | apply in_seq; lia]. }
  rewrite E in H; apply repeat_spec in H; discriminate.
Qed.

(** The source yields the classes of [order], each of the [label_size]
    classes once, again and again, with one-hot labels. *)
Definition cycles (ts : TrainingSet) (order : list nat) : Prop :=
  0 < label_size ts
  /\ length order = label_size ts
  /\ NoDup order
  /\ (forall c, In c order -> c < label_size ts)
  /\ forall t,
       snd (examples ts t)
       = one_hot (label_size ts) (nth (t mod label_size ts) order 0).

Section Cycling.

Variable ts : TrainingSet.
Variable order : list nat.
Hypothesis Hcycles : cycles ts order.

Let K := label_size ts.
Let cls (t : nat) : nat := nth (t mod K) order 0.

Lemma cycles_class_lt (t : nat) : cls t < K.
Proof.
  destruct Hcycles as (Hk & Hlen & _ & Hin & _).
  apply Hin, nth_In; rewrite Hlen; apply Nat.mod_upper_bound; lia.
Qed.

Lemma cycles_argmax (t : nat) : np_argmax (snd (examples ts t)) = Ret (cls t).
Proof.
  destruct Hcycles as (_ & _ & _ & _ & Hlab).
  rewrite Hlab; apply np_argmax_one_hot, cycles_class_lt.
Qed.

Lemma cycles_period (q : nat) : map cls (seq (q * K) K) = order.
Proof.
  destruct Hcycles as (Hk & Hlen & _).
  apply nth_ext with 0 0; [rewrite length_map, length_seq; auto | ].
  intros r Hr; rewrite length_map, length_seq in Hr.
  rewrite (nth_indep _ 0 (cls 0)) by (rewrite length_map, length_seq; exact Hr).
  rewrite map_nth, seq_nth by exact Hr.
  unfold cls; destruct (div_mod_pair K q r Hr) as [_ ->]; reflexivity.
Qed.

Lemma cycles_all_classes (c : nat) : c < K -> In c order.
Proof.
  destruct Hcycles as (_ & Hlen & Hnodup & Hin & _); intros Hc.
  apply (NoDup_length_incl Hnodup (l' := seq 0 K)).
  - rewrite length_seq; fold K in Hlen; lia.
  - intros x Hx; apply in_seq; specialize (Hin x Hx); fold K in Hin; lia.
  - apply in_seq; lia.
Qed.

(** After [q] rounds each class has been drawn [q] times. *)
Lemma cycles_drawn (q c : nat) : c < K -> drawn_of cls c (q * K) = q.
Proof.
  intros Hc; induction q as [ | q IH]; [reflexivity | ].
  unfold drawn_of in *.
  replace (S q * K) with (q * K + K) by lia.
  rewrite seq_app, map_app, count_occ_app, IH; simpl.
  rewrite cycles_period.
  destruct Hcycles as (_ & _ & Hnodup & _).
  rewrite (proj1 (NoDup_count_occ' Nat.eq_dec order) Hnodup c
             (cycles_all_classes c Hc)).
  lia.
Qed.

(** All blocks are full after [(nb - 1) / K + 1] rounds for each of the
    [cap] entries of a block. *)
Lemma cycles_fill (cap nb : nat) :
  exists b,
    fill ts cap 0 (((nb - 1) / K + 1) * cap * K) (repeat [] nb) = Ret b
    /\ all_full cap b = true.
Proof.
  destruct Hcycles as (Hk & _).
  destruct (fill_returns ts cls cap Hk cycles_argmax 0
              (((nb - 1) / K + 1) * cap * K) (repeat [] nb)) as [b Hb].
  exists b; split; [exact Hb | ].
  apply (ordered_fill_full ts cls cap nb Hk (((nb - 1) / K + 1) * cap * K)).
  - apply (fill_ordered ts cls cap nb Hk cycles_argmax cycles_class_lt
             0 _ _ _ Hb), ordered_fill_empty, Hk.
  - intros i Hi; fold K.
    rewrite cycles_drawn by (apply Nat.mod_upper_bound; fold K; lia).
    assert (i / K <= (nb - 1) / K) by (apply Nat.Div0.div_le_mono; lia).
    nia.
Qed.

End Cycling.

Lemma draw_loop_stops (ts : TrainingSet) (cap n T : nat)
  (blocks b bT : Blocks) (drawn : nat) :
  draw_loop ts cap n 0 blocks = Ret (b, drawn) ->
  all_full cap blocks = false ->
  fill ts cap 0 T blocks = Ret bT -> all_full cap bT = true -> T <= n ->
  drawn <= T /\ all_full cap b = true.
Proof.
  intros Hloop Hnot HT Hfull Hle.
  destruct (draw_loop_spec _ _ _ _ _ _ _ Hloop Hnot)
    as (t & Htn & Ht & Hfill & Hend & Hbefore); simpl in Ht; subst t.
  assert (Hdrawn : drawn <= T).
  { destruct (Nat.le_gt_cases drawn T) as [ | Hgt]; [assumption | ].
    destruct (Hbefore T Hgt) as (b' & Hb' & Hnot').
    rewrite HT in Hb'; injection Hb' as <-; congruence. }
  split; [exact Hdrawn | ].
  destruct Hend as [-> | ?]; [ | assumption].
  assert (T = n) as -> by lia.
  rewrite HT in Hfill; injection Hfill as <-; exact Hfull.
Qed.

(** C2: on a class-balanced layout, when the source cycles through its
    [K = label_size] classes, one one-hot class a draw, and [K] times
    the capacity [bw * bh] of a block is at most 998,976 (what two
    rounds of a full grid of 1024 cells leave of the 1,000,000 draws),
    [setup_snapshot_image_grid] returns after fewer than 1,000,000
    draws and every cell of the [gw * gh] cells of [reals] and [labels]
    holds an example drawn from the source; none is left at the zeros
    it was initialized with: its label is not the zero label. *)
Theorem cycling_source_fills_grid (ts : TrainingSet) (size layout : string)
  (gwz ghz : Z) (bw bh : nat) (order : list nat) :
  let gw := Z.to_nat gwz in
  let gh := Z.to_nat ghz in
  cycles ts order ->
  select_size (shape ts) size = Ret (gwz, ghz) ->
  class_layouts gw gh layout = Some (bw, bh) ->
  (Z.of_nat (label_size ts) * Z.of_nat (bw * bh) <= 998976)%Z ->
  exists (reals : list Image) (labels : list Label) (drawn : nat),
    setup_with_draws ts size layout = Ret ((gwz, ghz), reals, labels, drawn)
    /\ setup_snapshot_image_grid ts size layout
       = Ret ((gwz, ghz), reals, labels)
    /\ (Z.of_nat drawn < 1000000)%Z
    /\ length reals = gw * gh /\ length labels = gw * gh
    /\ forall p, p < gw * gh ->
         exists t,
           t < drawn
           /\ (nth p reals [], nth p labels []) = examples ts t
           /\ nth p labels [] <> zeros_label (label_size ts).
Proof.
  intros gw gh Hcyc Hsize Hlayout Hfar.
  set (nw := (gw - 1) / bw + 1); set (nh := (gh - 1) / bh + 1).
  set (K := label_size ts) in *; set (cap := bw * bh) in *.
  destruct (select_size_bounds _ _ _ _ Hsize) as [Hgw Hgh].
  destruct (class_layouts_positive gw gh layout bw bh
              ltac:(subst gw; lia) ltac:(subst gh; lia) Hlayout)
    as [Hbw Hbh].
  assert (Hnb : 0 < nw * nh) by (subst nw nh; nia).
  assert (Hcap : 0 < cap) by (subst cap; nia).
  pose proof (class_layouts_room gw gh layout bw bh
                ltac:(subst gw; lia) ltac:(subst gh; lia) Hlayout) as Hroom.
  fold nw nh cap in Hroom.
  pose proof Hcyc as (Hk & _ & _ & Hin & Hlab); fold K in Hk.
  assert (Hwf : well_formed ts).
  { split; [exact Hk | ].
    intros t; rewrite Hlab; unfold one_hot.
    rewrite length_map, length_seq; reflexivity. }
  (* the number of draws after which every block is full *)
  set (T := ((nw * nh - 1) / K + 1) * cap * K).
  assert (HT : T + cap <= nw * nh * cap + K * cap).
  { subst T; pose proof (Nat.div_mod_eq (nw * nh - 1) K).
    pose proof (Nat.mod_upper_bound (nw * nh - 1) K); nia. }
  pose proof max_draws_value as Hmax.
  destruct (cycles_fill ts order Hcyc cap (nw * nh)) as (bT & HbT & Hfull).
  fold K T in HbT.
  destruct (draw_loop_returns ts cap max_draws 0 (repeat [] (nw * nh)) Hwf)
    as [[blocks drawn] Hloop].
  destruct (draw_loop_stops _ _ _ _ _ _ _ _ Hloop
              (all_full_empty _ _ Hcap Hnb) HbT Hfull ltac:(nia))
    as [Hdrawn Hblocks].
  destruct (setup_class_layout_result ts size layout gwz ghz bw bh blocks
              drawn Hsize Hlayout Hloop)
    as (reals & labels & Hret & Hl1 & Hl2 & Hcells).
  exists reals, labels, drawn.
  split; [exact Hret | ].
  split; [exact (setup_of_with_draws _ _ _ _ _ _ _ Hret) | ].
  split; [nia | ].
  split; [exact Hl1 | split; [exact Hl2 | ]].
  intros p Hp; pose proof (Hcells p Hp) as Hcell.
  destruct (draw_loop_spec _ _ _ _ _ _ _ Hloop (all_full_empty _ _ Hcap Hnb))
    as (t & _ & Ht & Hfill & _); simpl in Ht; subst t.
  pose proof (fill_sourced _ _ _ _ _ _ Hfill (sourced_empty ts _)) as Hs.
  destruct (fill_within _ _ _ _ _ _ Hfill (within_empty _ _)) as [_ Hlen].
  rewrite repeat_length in Hlen.
  (* the cell's place in its block is taken, the block being full *)
  change (entry_at (Z.to_nat gwz) bw bh ((Z.to_nat gwz - 1) / bw + 1)
            blocks p) with (entry_at gw bw bh nw blocks p) in Hcell.
  unfold entry_at, cell_source in Hcell.
  assert (Hgw0 : 0 < gw) by (subst gw; lia).
  assert (Hpx : p mod gw < gw) by (apply Nat.mod_upper_bound; lia).
  assert (Hpy : p / gw < gh) by (apply Nat.Div0.div_lt_upper_bound; lia).
  assert (Hcover : gw <= nw * bw)
    by (subst nw; apply blocks_cover; assumption).
  assert (Hcoverh : gh <= nh * bh)
    by (subst nh; apply blocks_cover; [assumption | subst gh; lia]).
  pose proof (place_of_cell_block gw bw bh nw Hbw Hbh Hcover
                (p mod gw) (p / gw) Hpx) as Hplace.
  unfold cell_block in *.
  set (i := (p / gw) / bh * nw + (p mod gw) / bw) in *.
  set (j := (p / gw) mod bh * bw + (p mod gw) mod bw) in *.
  destruct Hplace as (_ & _ & Hj).
  assert (Hi : i < nw * nh).
  { assert ((p mod gw) / bw < nw)
      by (apply Nat.Div0.div_lt_upper_bound; lia).
    assert ((p / gw) / bh < nh)
      by (apply Nat.Div0.div_lt_upper_bound; lia).
    subst i; nia. }
  pose proof (proj1 (all_full_true cap blocks) Hblocks i ltac:(lia)) as Hbi.
  unfold block_len in Hbi.
  destruct (nth_error (nth i blocks []) j) as [e | ] eqn:He.
  - destruct (Hs _ _ _ He) as (t & c & m & Ht & -> & _).
    exists t; split; [lia | split; [exact Hcell | ]].
    apply (f_equal snd) in Hcell; simpl in Hcell.
    rewrite Hcell, Hlab; apply one_hot_not_zeros.
    apply Hin, nth_In.
    destruct Hcyc as (_ & -> & _); apply Nat.mod_upper_bound; lia.
  - apply nth_error_None in He; fold cap in Hj; lia.
Qed.

Lemma alternating_cycles : cycles alternating [0; 1].
Proof.
  split; [simpl; lia | ].
  split; [reflexivity | ].
  split; [repeat constructor; simpl; intuition lia | ].
  split; [simpl; intuition lia | ].
  intros t; unfold alternating; cbn [examples label_size].
  pose proof (Nat.mod_upper_bound t 2 ltac:(lia)).
  destruct (t mod 2) as [ | [ | r]]; [reflexivity | reflexivity | lia].
Defined.

Lemma cycling_source_fills_grid_witness :
  cycles alternating [0; 1]
  /\ (Z.of_nat 2 * Z.of_nat (4 * 4) <= 998976)%Z
  /\ exists (reals : list Image) (labels : list Label),
       setup_snapshot_image_grid alternating "1080p" "class4x4"
       = Ret ((3, 2)%Z, reals, labels)
       /\ length reals = 6.
Proof.
  split; [exact alternating_cycles | ].
  split; [lia | ].
  destruct (cycling_source_fills_grid alternating "1080p" "class4x4" 3 2 4 4
              [0; 1] alternating_cycles eq_refl eq_refl ltac:(simpl; lia))
    as (reals & labels & drawn & _ & H & _ & Hlen & _).
  exists reals, labels; split; [exact H | exact Hlen].
Defined.

(** A source that declares three classes and yields the first only:
    the second row of a row-per-class grid never fills, all the
    1,000,000 draws are made, and the row is returned as zeros. *)
Definition first_class_only : TrainingSet :=
  {| shape := [1; 960; 640]%Z;
     label_size := 3;
     examples := fun _ => ([7%Z], [1; 0; 0]%Z) |}.

Example draws_used_up :
  match setup_with_draws first_class_only "1080p" "row_per_class" with
  | Ret (g, reals, labels, drawn) =>
      g = (3, 2)%Z /\ Z.of_nat drawn = 1000000%Z
      /\ labels = [[1; 0; 0]; [1; 0; 0]; [1; 0; 0];
                   [0; 0; 0]; [0; 0; 0]; [0; 0; 0]]%Z
      /\ firstn 3 reals = [[7%Z]; [7%Z]; [7%Z]]
  | _ => False
  end.
Proof. vm_compute; repeat split; reflexivity. Qed.

End SnapshotFacts.

(** ** The latest pickle *)

Module PickleFacts.

Import Pickle.

(** *** The order of strings *)

Lemma compare_refl (s : string) : String.compare s s = Eq.
Proof.
  induction s as [ | c s IH]; simpl; [reflexivity | ].
  unfold Ascii.compare; rewrite N.compare_refl; exact IH.
Qed.

Lemma leb_refl (s : string) : String.leb s s = true.
Proof. unfold String.leb; rewrite compare_refl; reflexivity. Qed.



(** *** [sorted] *)










(** *** The file name pattern *)






(** [int] reads the digits in base ten. *)
Lemma py_int_snoc (s : string) (c : ascii) :
  py_int (s ++ String c EmptyString)
  = (10 * py_int s + Z.of_nat (nat_of_ascii c - 48))%Z.
Proof.
  unfold py_int.
  replace (list_ascii_of_string (s ++ String c EmptyString))
    with (list_ascii_of_string s ++ [c]).
  - rewrite fold_left_app; reflexivity.
  - induction s as [ | a s IH]; simpl; [ | rewrite IH]; reflexivity.
Qed.

(** *** The function *)







(** Three runs, the last with three snapshots. *)
Definition three_runs : Tree :=
  [("00000-first"%string,
    ["network-snapshot-000010.pkl"; "network-final.pkl"; "log.txt"]%string);
   ("00001-second"%string,
    ["network-snapshot-000000.pkl"; "network-snapshot-000140.pkl";
     "network-snapshot-000020.pkl"]%string);
   ("stats"%string, ["network-snapshot-999999.pkl"]%string)].

Example locate_latest_of_three_runs :
  locate_latest_pkl three_runs "results"
  = Ret (Some "results/00001-second/network-snapshot-000140.pkl"%string,
         inject_Z 140).
Proof. reflexivity. Qed.

Example locate_latest_none :
  locate_latest_pkl [("stats"%string, ["network-snapshot-999999.pkl"%string])]
    "results"
  = Ret (None, 0%Q).
Proof. reflexivity. Qed.


End PickleFacts.

(** ** The image grid *)

Module ImageGridFacts.

Import NdArray ImageUtils.

Lemma split_last2_app (l : list nat) (r c : nat) :
  split_last2 (l ++ [r; c]) = Some (l, r, c).
Proof.
  unfold split_last2; rewrite rev_app_distr; simpl.
  rewrite rev_involutive; reflexivity.
Qed.

Section Tiles.

Variable A : Type.
Variable images : ndarray A.
Variables N H W cols rows : nat.
Variable lead : list nat.

Hypothesis Hshape : shape images = N :: lead ++ [H; W].

(** The top-left corner of tile [i]. *)
Let top (i : nat) : nat := (i / cols) * H.
Let left (i : nat) : nat := (i mod cols) * W.

(** The grid holds the images before [k] in their tiles. *)
Definition tiled (k : nat) (grid : ndarray A) : Prop :=
  shape grid = lead ++ [rows * H; cols * W]
  /\ forall i l r c,
       i < k -> r < H -> c < W ->
       item grid (l ++ [top i + r; left i + c]) = item images (i :: l ++ [r; c]).

Lemma tiles_apart (i k r c : nat) :
  0 < cols -> i <> k -> r < H -> c < W ->
  (top k <=? top i + r) && (top i + r <? top k + H)
  && (left k <=? left i + c) && (left i + c <? left k + W) = false.
Proof.
  intros Hcols Hik Hr Hc; unfold top, left.
  destruct (Nat.leb_spec (k / cols * H) (i / cols * H + r)); simpl; auto.
  destruct (Nat.ltb_spec (i / cols * H + r) (k / cols * H + H)); simpl; auto.
  destruct (Nat.leb_spec (k mod cols * W) (i mod cols * W + c)); simpl; auto.
  destruct (Nat.ltb_spec (i mod cols * W + c) (k mod cols * W + W)); simpl;
    auto.
  exfalso; apply Hik.
  assert (i / cols = k / cols) by nia.
  assert (i mod cols = k mod cols) by nia.
  pose proof (Nat.div_mod_eq i cols); pose proof (Nat.div_mod_eq k cols); nia.
Qed.

Lemma assign_tile_tiled (k : nat) (grid : ndarray A) :
  0 < cols -> k < cols * rows -> tiled k grid ->
  exists grid',
    assign_tile grid (top k) (left k) H W (subarray images k) = Ret grid'
    /\ tiled (S k) grid'.
Proof.
  intros Hcols Hk [Hg Htiles].
  assert (Hrow : k / cols < rows)
    by (apply Nat.Div0.div_lt_upper_bound; lia).
  assert (Hcol : k mod cols < cols) by (apply Nat.mod_upper_bound; lia).
  assert (Hy : top k + H <= rows * H) by (unfold top; nia).
  assert (Hx : left k + W <= cols * W) by (unfold left; nia).
  unfold assign_tile.
  rewrite Hg, split_last2_app.
  unfold subarray at 1; cbn [shape]; rewrite Hshape; cbn [tl].
  rewrite split_last2_app.
  destruct (list_eq_dec Nat.eq_dec lead lead) as [_ | Hne];
    [ | contradiction].
  rewrite (Nat.min_l (top k) (rows * H)), (Nat.min_l (top k + H) (rows * H)),
    (Nat.min_l (left k) (cols * W)), (Nat.min_l (left k + W) (cols * W))
    by lia.
  replace (top k + H - top k) with H by lia.
  replace (left k + W - left k) with W by lia.
  rewrite !Nat.eqb_refl; cbn [andb orb].
  eexists; split; [reflexivity | ].
  split; [reflexivity | ].
  intros i l r c Hi Hr Hc; cbn [item]; rewrite split_last2_app.
  destruct (Nat.eq_dec i k) as [-> | Hne].
  - destruct (Nat.leb_spec (top k) (top k + r)); [ | lia].
    destruct (Nat.ltb_spec (top k + r) (top k + H)); [ | lia].
    destruct (Nat.leb_spec (left k) (left k + c)); [ | lia].
    destruct (Nat.ltb_spec (left k + c) (left k + W)); [ | lia].
    cbn [andb subarray item].
    replace (top k + r - top k) with r by lia.
    replace (left k + c - left k) with c by lia.
    reflexivity.
  - rewrite tiles_apart by assumption.
    apply Htiles; [lia | assumption | assumption].
Qed.

Lemma paste_images_tiled (n k : nat) (grid : ndarray A) :
  k + n <= cols * rows -> tiled k grid ->
  exists grid',
    paste_images images cols W H (seq k n) grid = Ret grid'
    /\ tiled (k + n) grid'.
Proof.
  revert k grid; induction n as [ | n IH]; intros k grid Hle Ht.
  - exists grid; rewrite Nat.add_0_r; split; [reflexivity | exact Ht].
  - cbn [seq paste_images].
    assert (Hcols : 0 < cols) by nia.
    destruct (Nat.eqb_spec cols 0); [lia | ].
    destruct (assign_tile_tiled k grid Hcols ltac:(lia) Ht)
      as (g1 & Hassign & Ht1).
    unfold top, left in Hassign; rewrite Hassign; cbn [bind].
    destruct (IH (S k) g1 ltac:(lia) Ht1) as (g2 & Hpaste & Ht2).
    exists g2; split; [exact Hpaste | ].
    replace (k + S n) with (S k + n) by lia; exact Ht2.
Qed.

End Tiles.

(** C5: for a batch of [N] images of [H] by [W] ([lead] is empty, or
    the number of channels) and a layout of [cols] columns and [rows]
    rows with room for them, [create_image_grid] returns an array of
    [rows * H] by [cols * W] in which image [i] is found unchanged in
    the tile of row [i / cols] and column [i mod cols]. *)
Theorem create_image_grid_tiles (A : Type) (zero : A) (images : ndarray A)
  (N H W cols rows : nat) (lead : list nat) :
  shape images = N :: lead ++ [H; W] -> length lead <= 1 ->
  N <= cols * rows ->
  exists grid,
    create_image_grid zero images (Some (cols, rows)) = Ret grid
    /\ shape grid = lead ++ [rows * H; cols * W]
    /\ forall i l r c,
         i < N -> r < H -> c < W ->
         item grid (l ++ [(i / cols) * H + r; (i mod cols) * W + c])
         = item images (i :: l ++ [r; c]).
Proof.
  intros Hshape Hlead Hroom.
  destruct (paste_images_tiled A images N H W cols rows lead Hshape N 0
              (zeros zero (lead ++ [rows * H; cols * W])))
    as (grid & Hpaste & Hshape' & Htiles).
  - exact Hroom.
  - split; [reflexivity | intros i l r c Hi; lia].
  - exists grid; split; [ | split; [exact Hshape' | exact Htiles]].
    unfold create_image_grid, ndim; rewrite Hshape.
    destruct lead as [ | ch [ | ch' lead']]; [ | | simpl in Hlead; lia];
      exact Hpaste.
Qed.

(** Five images of two by two pixels; pixel [(r, c)] of image [i] is
    [100 * (i + 1) + 10 * r + c]. *)
Definition five_images : ndarray nat :=
  {| shape := [5; 2; 2];
     item := fun idx =>
       match idx with
       | [i; r; c] => 100 * (i + 1) + 10 * r + c
       | _ => 0
       end |}.

Lemma create_image_grid_tiles_witness :
  5 <= 3 * 2
  /\ exists grid,
       create_image_grid 0 five_images (Some (3, 2)) = Ret grid
       /\ shape grid = [4; 6]
       /\ item grid [2 + 1; 2 + 0] = 510.
Proof.
  split; [lia | ].
  destruct (create_image_grid_tiles nat 0 five_images 5 2 2 3 2 []
              eq_refl (le_0_n 1) ltac:(lia))
    as (grid & Hret & Hshape & Htiles).
  exists grid; split; [exact Hret | split; [exact Hshape | ]].
  exact (Htiles 4 [] 1 0 ltac:(lia) ltac:(lia) ltac:(lia)).
Defined.

Example create_image_grid_overfull :
  create_image_grid 0 five_images (Some (2, 2)) = Raise ValueError.
Proof. reflexivity. Qed.

End ImageGridFacts.

(** ** Dynamic range and bytes *)

Module RangeFacts.

Import NdArray ImageUtils.
Local Open Scope Q_scope.







(** *** Rounding *)



(** A tie goes to the even neighbour. *)
Lemma np_rint_tie (n : Z) :
  Z.even (np_rint (inject_Z n + (1 # 2))) = true.
Proof.
  unfold np_rint.
  assert (Hf : Qfloor (inject_Z n + (1 # 2)) = n).
  { apply Z.le_antisymm.
    - apply Z.lt_succ_r; rewrite Zlt_Qlt, <- Z.add_1_r, inject_Z_plus.
      change (inject_Z 1) with 1.
      apply Qle_lt_trans with (inject_Z n + (1 # 2)); [apply Qfloor_le | lra].
    - rewrite <- (Qfloor_Z n) at 1; apply Qfloor_resp_le; lra. }
  rewrite Hf.
  destruct (Qcompare_spec (inject_Z n + (1 # 2) - inject_Z n) (1 # 2))
    as [_ | L | G]; [ | lra | lra].
  destruct (Z.even n) eqn:He; [exact He | ].
  rewrite Z.even_add, He; reflexivity.
Qed.



(** *** The rescaling *)




(** *** The conversion *)



(** One row of three pixels in the range 0..1: below it, inside and
    above. *)
Definition three_pixels : ndarray Q :=
  {| shape := [1; 3]%nat;
     item := fun idx =>
       match idx with
       | [_; O] => - (1 # 2)
       | [_; S O] => 1 # 2
       | _ => 3 # 2
       end |}.


Example convert_three_pixels :
  match convert_to_pil_image three_pixels (0, 1) with
  | Ret (out, fmt) =>
      List.map (fun c => item out [0; c]%nat) [0; 1; 2]%nat = [0; 128; 255]%Z
      /\ fmt = "L"%string
  | _ => False
  end.
Proof. vm_compute; split; reflexivity. Qed.

Example np_rint_ties :
  List.map np_rint [1 # 2; 3 # 2; 5 # 2; - (1 # 2); 7 # 3] = [0; 2; 2; 0; 2]%Z.
Proof. reflexivity. Qed.

End RangeFacts.

(** ** Cutout *)

Module AugmentFacts.

Import NdArray Augment.
Local Open Scope Z_scope.






(** An image of four rows, five columns and three channels. *)
Definition small_image : ndarray Q :=
  {| shape := [4; 5; 3]%nat;
     item := fun idx =>
       match idx with
       | [r; c; ch] => inject_Z (Z.of_nat (1 + r + c + ch))
       | _ => 0%Q
       end |}.


(** With the default strength an image of fewer than ten pixels a side
    leaves no size to draw, and the op that draws it fails. *)
Example random_cutout_small_image :
  random_cutout false small_image (1 # 10) (0, 0, 0)
  = Raise InvalidArgumentError.
Proof. reflexivity. Qed.

End AugmentFacts.

(** * Further properties of the functions *)

(** ** The snapshot grid: layouts, errors, rows and columns *)

Module SnapshotMore.

Import Snapshot SnapshotFacts.
Local Open Scope outcome_scope.

(** The 'random' layout takes one minibatch of [gw * gh] examples:
    the first [gw * gh] the source yields, in their order, image and
    label of an example at the same index of the two arrays. *)
Theorem random_layout_one_minibatch (ts : TrainingSet) (size : string)
  (gwz ghz : Z) :
  select_size (shape ts) size = Ret (gwz, ghz) ->
  exists (reals : list Image) (labels : list Label),
    setup_with_draws ts size "random"
    = Ret ((gwz, ghz), reals, labels, Z.to_nat gwz * Z.to_nat ghz)
    /\ setup_snapshot_image_grid ts size "random"
       = Ret ((gwz, ghz), reals, labels)
    /\ length reals = Z.to_nat gwz * Z.to_nat ghz
    /\ length labels = Z.to_nat gwz * Z.to_nat ghz
    /\ forall p, p < Z.to_nat gwz * Z.to_nat ghz ->
         (nth p reals [], nth p labels []) = examples ts p.
Proof.
  intros Hsize.
  set (n := Z.to_nat gwz * Z.to_nat ghz).
  exists (map fst (get_minibatch_np ts 0 n)), (map snd (get_minibatch_np ts 0 n)).
  assert (Hret : setup_with_draws ts size "random"
                 = Ret ((gwz, ghz), map fst (get_minibatch_np ts 0 n),
                        map snd (get_minibatch_np ts 0 n), n)).
  { unfold setup_with_draws; rewrite Hsize; reflexivity. }
  split; [exact Hret | ].
  split; [exact (setup_of_with_draws _ _ _ _ _ _ _ Hret) | ].
  unfold get_minibatch_np.
  split; [rewrite !length_map, length_seq; reflexivity | ].
  split; [rewrite !length_map, length_seq; reflexivity | ].
  intros p Hp.
  rewrite !map_map.
  rewrite (nth_indep _ [] (fst (examples ts 0)))
    by (rewrite length_map, length_seq; exact Hp).
  rewrite (nth_indep (map (fun x => snd (examples ts x)) _) []
             (snd (examples ts 0)))
    by (rewrite length_map, length_seq; exact Hp).
  rewrite (map_nth (fun x => fst (examples ts x))),
    (map_nth (fun x => snd (examples ts x))), seq_nth by exact Hp.
  cbn [Nat.add]; destruct (examples ts p); reflexivity.
Qed.

Lemma random_layout_one_minibatch_witness :
  select_size (shape alternating) "1080p" = Ret (3, 2)%Z
  /\ exists (reals : list Image) (labels : list Label),
       setup_snapshot_image_grid alternating "1080p" "random"
       = Ret ((3, 2)%Z, reals, labels)
       /\ length reals = 6.
Proof.
  split; [reflexivity | ].
  destruct (random_layout_one_minibatch alternating "1080p" 3 2 eq_refl)
    as (reals & labels & _ & H & Hlen & _).
  exists reals, labels; split; [exact H | exact Hlen].
Defined.

(** A layout that is neither 'random' nor one of the class layouts is
    not refused: nothing is drawn from the source and the grid comes
    back as the zeros it was initialized with. *)
Theorem unknown_layout_zeros (ts : TrainingSet) (size layout : string)
  (gwz ghz : Z) :
  select_size (shape ts) size = Ret (gwz, ghz) ->
  layout <> "random"%string -> layout <> "row_per_class"%string ->
  layout <> "col_per_class"%string -> layout <> "class4x4"%string ->
  setup_with_draws ts size layout
  = Ret ((gwz, ghz),
         repeat (zeros_image (shape ts)) (Z.to_nat gwz * Z.to_nat ghz),
         repeat (zeros_label (label_size ts)) (Z.to_nat gwz * Z.to_nat ghz),
         0).
Proof.
  intros Hsize Hrandom Hrow Hcol H4.
  unfold setup_with_draws, class_layouts; rewrite Hsize; cbn [bind].
  destruct (String.eqb_spec layout "random"); [contradiction | ].
  destruct (String.eqb_spec layout "row_per_class"); [contradiction | ].
  destruct (String.eqb_spec layout "col_per_class"); [contradiction | ].
  destruct (String.eqb_spec layout "class4x4"); [contradiction | ].
  reflexivity.
Qed.

Lemma unknown_layout_zeros_witness :
  select_size (shape alternating) "1080p" = Ret (3, 2)%Z
  /\ setup_snapshot_image_grid alternating "1080p" "row-per-class"
     = Ret ((3, 2)%Z,
            repeat (zeros_image (shape alternating)) 6,
            repeat [0; 0]%Z 6).
Proof.
  split; [reflexivity | ].
  apply setup_of_with_draws with 0.
  exact (unknown_layout_zeros alternating "1080p" "row-per-class" 3 2 eq_refl
           ltac:(discriminate) ltac:(discriminate) ltac:(discriminate)
           ltac:(discriminate)).
Defined.

(** For the three presets a data set whose images have width or height
    zero makes the function raise [ZeroDivisionError], whatever the
    layout; a size that is no preset does not look at the shape. *)
Theorem empty_images_divide_by_zero (ts : TrainingSet) (size layout : string)
  (h w : Z) :
  nth_error (shape ts) 1 = Some h -> nth_error (shape ts) 2 = Some w ->
  w = 0%Z \/ h = 0%Z ->
  (size = "1080p"%string \/ size = "4k"%string \/ size = "8k"%string ->
   setup_snapshot_image_grid ts size layout = Raise ZeroDivisionError)
  /\ (size <> "1080p"%string -> size <> "4k"%string -> size <> "8k"%string ->
      select_size (shape ts) size = Ret (1, 1)%Z).
Proof.
  intros Hh Hw Hzero.
  assert (Hrow : forall (p q lw lh hw hh : Z) (k : Z * Z -> outcome (Z * Z)),
             (g <- (w0 <- getitem (shape ts) 2;; qw <- floordiv p w0;;
                    h0 <- getitem (shape ts) 1;; qh <- floordiv q h0;;
                    Ret (np_clip qw lw hw, np_clip qh lh hh));; k g)
             = Raise ZeroDivisionError).
  { intros; rewrite (getitem_Ret _ _ _ Hw); cbn [bind]; unfold floordiv.
    destruct (Z.eqb_spec w 0) as [_ | Hw0]; [reflexivity | cbn [bind]].
    rewrite (getitem_Ret _ _ _ Hh); cbn [bind].
    destruct (Z.eqb_spec h 0) as [_ | Hh0]; [reflexivity | lia]. }
  split.
  - intros Hsize.
    assert (Hsel : select_size (shape ts) size = Raise ZeroDivisionError).
    { unfold select_size.
      destruct Hsize as [-> | [-> | ->]]; cbn [String.eqb Ascii.eqb Bool.eqb];
        cbn [bind]; apply Hrow. }
    unfold setup_snapshot_image_grid, setup_with_draws; rewrite Hsel.
    reflexivity.
  - intros H1 H2 H3; unfold select_size.
    destruct (String.eqb_spec size "1080p"); [contradiction | ].
    destruct (String.eqb_spec size "4k"); [contradiction | ].
    destruct (String.eqb_spec size "8k"); [contradiction | ].
    reflexivity.
Qed.

(** A data set with images of no width. *)
Definition no_width : TrainingSet :=
  {| shape := [3; 512; 0]%Z;
     label_size := 2;
     examples := fun _ => ([], [1; 0]%Z) |}.

Lemma empty_images_divide_by_zero_witness :
  nth_error (shape no_width) 2 = Some 0%Z
  /\ setup_snapshot_image_grid no_width "4k" "random"
     = Raise ZeroDivisionError.
Proof.
  split; [reflexivity | ].
  exact (proj1 (empty_images_divide_by_zero no_width "4k" "random" 512 0
                  eq_refl eq_refl (or_introl eq_refl))
           (or_intror (or_introl eq_refl))).
Defined.

(** On a class-balanced layout a source whose first label has no entry
    (a data set without labels) makes the function raise [ValueError]
    at the first draw. *)
Theorem unlabeled_source_raises (ts : TrainingSet) (size layout : string)
  (gwz ghz : Z) (bw bh : nat) :
  select_size (shape ts) size = Ret (gwz, ghz) ->
  class_layouts (Z.to_nat gwz) (Z.to_nat ghz) layout = Some (bw, bh) ->
  snd (examples ts 0) = [] ->
  setup_snapshot_image_grid ts size layout = Raise ValueError.
Proof.
  intros Hsize Hlayout Hlabel.
  unfold setup_snapshot_image_grid.
  rewrite (setup_class_layout _ _ _ _ _ _ _ Hsize Hlayout).
  unfold class_layout.
  assert (Hloop : forall cap blocks,
            draw_loop ts cap max_draws 0 blocks = Raise ValueError).
  { intros cap blocks.
    assert (Hmax : exists n, max_draws = S n).
    { exists (Nat.pred max_draws).
      pose proof max_draws_value; lia. }
    destruct Hmax as [n ->]; simpl.
    unfold place_example; rewrite Hlabel; reflexivity. }
  rewrite Hloop; reflexivity.
Qed.

(** A data set without labels. *)
Definition unlabeled : TrainingSet :=
  {| shape := [3; 512; 512]%Z;
     label_size := 0;
     examples := fun _ => ([0%Z], []) |}.

Lemma unlabeled_source_raises_witness :
  select_size (shape unlabeled) "1080p" = Ret (3, 2)%Z
  /\ setup_snapshot_image_grid unlabeled "1080p" "col_per_class"
     = Raise ValueError.
Proof.
  split; [reflexivity | ].
  exact (unlabeled_source_raises unlabeled "1080p" "col_per_class" 3 2 1 2
           eq_refl eq_refl eq_refl).
Defined.

(** A cell of the grid of a class-balanced layout is as initialized or
    shows an example drawn from the source, whose class [c] is [m]
    advances before the block of the cell. *)
Lemma class_layout_cells (ts : TrainingSet) (size layout : string)
  (gwz ghz : Z) (bw bh : nat) (g : Z * Z) (reals : list Image)
  (labels : list Label) (p : nat) :
  let gw := Z.to_nat gwz in
  let gh := Z.to_nat ghz in
  let nw := (gw - 1) / bw + 1 in
  let nh := (gh - 1) / bh + 1 in
  select_size (shape ts) size = Ret (gwz, ghz) ->
  class_layouts gw gh layout = Some (bw, bh) ->
  setup_snapshot_image_grid ts size layout = Ret (g, reals, labels) ->
  p < gw * gh ->
  (nth p reals [], nth p labels [])
  = (zeros_image (shape ts), zeros_label (label_size ts))
  \/ exists t c m,
       (nth p reals [], nth p labels []) = examples ts t
       /\ np_argmax (snd (examples ts t)) = Ret c
       /\ fst (cell_source gw bw bh nw p) = c + m * label_size ts
       /\ fst (cell_source gw bw bh nw p) < nw * nh.
Proof.
  intros gw gh nw nh Hsize Hlayout Hret Hp.
  destruct (setup_class_layout_inv _ _ _ _ _ _ _ _ _ _ Hsize Hlayout Hret)
    as (blocks & drawn & Hloop & Hd).
  destruct (setup_class_layout_result ts size layout gwz ghz bw bh blocks
              drawn Hsize Hlayout Hloop)
    as (reals' & labels' & Hd' & _ & _ & Hcells).
  rewrite Hd in Hd'; injection Hd' as _ <- <-.
  rewrite (Hcells p Hp).
  destruct (select_size_bounds _ _ _ _ Hsize) as [Hgw Hgh].
  destruct (class_layouts_positive gw gh layout bw bh
              ltac:(subst gw; lia) ltac:(subst gh; lia) Hlayout)
    as [Hbw Hbh].
  assert (Hnb : 0 < nw * nh) by (subst nw nh; nia).
  assert (Hcap : 0 < bw * bh) by nia.
  destruct (draw_loop_spec _ _ _ _ _ _ _ Hloop (all_full_empty _ _ Hcap Hnb))
    as (t & _ & _ & Hfill & _).
  pose proof (fill_sourced _ _ _ _ _ _ Hfill (sourced_empty ts _)) as Hs.
  destruct (fill_within _ _ _ _ _ _ Hfill (within_empty _ _)) as [_ Hlen].
  rewrite repeat_length in Hlen; change (length blocks = nw * nh) in Hlen.
  change (entry_at (Z.to_nat gwz) bw bh ((Z.to_nat gwz - 1) / bw + 1)
            blocks p) with (entry_at gw bw bh nw blocks p).
  unfold entry_at.
  destruct (cell_source gw bw bh nw p) as [i j] eqn:Hcell.
  destruct (nth_error (nth i blocks []) j) as [e | ] eqn:He; [right | left].
  - destruct (Hs _ _ _ He) as (t0 & c & m & _ & -> & Hc & Hi & Hlt).
    exists t0, c, m.
    split; [reflexivity | split; [exact Hc | split; [exact Hi | ]]].
    simpl; lia.
  - reflexivity.
Qed.

(** 'row_per_class': each row corresponds to one class label.  When
    the labels have at least as many classes as the grid has rows, a
    cell of row [y] that is not as initialized shows an example of
    class [y]. *)
Theorem row_per_class_rows (ts : TrainingSet) (size : string) (gwz ghz : Z)
  (g : Z * Z) (reals : list Image) (labels : list Label) (p : nat) :
  select_size (shape ts) size = Ret (gwz, ghz) ->
  Z.to_nat ghz <= label_size ts ->
  setup_snapshot_image_grid ts size "row_per_class" = Ret (g, reals, labels) ->
  p < Z.to_nat gwz * Z.to_nat ghz ->
  (nth p reals [], nth p labels [])
  = (zeros_image (shape ts), zeros_label (label_size ts))
  \/ exists t,
       (nth p reals [], nth p labels []) = examples ts t
       /\ np_argmax (snd (examples ts t)) = Ret (p / Z.to_nat gwz).
Proof.
  intros Hsize Hk Hret Hp.
  destruct (select_size_bounds _ _ _ _ Hsize) as [Hgw Hgh].
  set (gw := Z.to_nat gwz) in *; set (gh := Z.to_nat ghz) in *.
  assert (Hgw0 : 0 < gw) by (subst gw; lia).
  destruct (class_layout_cells ts size "row_per_class" gwz ghz gw 1 g reals
              labels p Hsize eq_refl Hret Hp)
    as [Hzero | (t & c & m & Hcell & Hc & Hblock & Hlt)]; [left; exact Hzero | ].
  right; exists t; split; [exact Hcell | ].
  fold gw gh in Hblock, Hlt.
  unfold cell_source, cell_block in Hblock, Hlt; cbn [fst] in Hblock, Hlt.
  rewrite (Nat.div_small (gw - 1) gw), Nat.div_1_r in Hblock, Hlt by lia.
  rewrite (Nat.div_small (p mod gw) gw) in Hblock, Hlt
    by (apply Nat.mod_upper_bound; lia).
  assert (Hy : p / gw < gh) by (apply Nat.Div0.div_lt_upper_bound; lia).
  assert (m = 0) as -> by nia.
  rewrite Hc; f_equal; lia.
Qed.

Lemma row_per_class_rows_witness :
  select_size (shape alternating) "1080p" = Ret (3, 2)%Z
  /\ Z.to_nat 2 <= label_size alternating
  /\ forall g reals labels,
       setup_snapshot_image_grid alternating "1080p" "row_per_class"
       = Ret (g, reals, labels) ->
       (nth 4 reals [], nth 4 labels [])
       = (zeros_image (shape alternating), [0; 0]%Z)
       \/ exists t,
            (nth 4 reals [], nth 4 labels []) = examples alternating t
            /\ np_argmax (snd (examples alternating t)) = Ret 1.
Proof.
  split; [reflexivity | split; [simpl; lia | ]].
  intros g reals labels Hret.
  exact (row_per_class_rows alternating "1080p" 3 2 g reals labels 4
           eq_refl ltac:(simpl; lia) Hret ltac:(simpl; lia)).
Defined.

(** 'col_per_class': the same for columns.  When the labels have at
    least as many classes as the grid has columns, a cell of column
    [x] that is not as initialized shows an example of class [x]. *)
Theorem col_per_class_columns (ts : TrainingSet) (size : string) (gwz ghz : Z)
  (g : Z * Z) (reals : list Image) (labels : list Label) (p : nat) :
  select_size (shape ts) size = Ret (gwz, ghz) ->
  Z.to_nat gwz <= label_size ts ->
  setup_snapshot_image_grid ts size "col_per_class" = Ret (g, reals, labels) ->
  p < Z.to_nat gwz * Z.to_nat ghz ->
  (nth p reals [], nth p labels [])
  = (zeros_image (shape ts), zeros_label (label_size ts))
  \/ exists t,
       (nth p reals [], nth p labels []) = examples ts t
       /\ np_argmax (snd (examples ts t)) = Ret (p mod Z.to_nat gwz).
Proof.
  intros Hsize Hk Hret Hp.
  destruct (select_size_bounds _ _ _ _ Hsize) as [Hgw Hgh].
  set (gw := Z.to_nat gwz) in *; set (gh := Z.to_nat ghz) in *.
  assert (Hgw0 : 0 < gw) by (subst gw; lia).
  assert (Hgh0 : 0 < gh) by (subst gh; lia).
  destruct (class_layout_cells ts size "col_per_class" gwz ghz 1 gh g reals
              labels p Hsize eq_refl Hret Hp)
    as [Hzero | (t & c & m & Hcell & Hc & Hblock & Hlt)]; [left; exact Hzero | ].
  right; exists t; split; [exact Hcell | ].
  fold gw gh in Hblock, Hlt.
  unfold cell_source, cell_block in Hblock, Hlt; cbn [fst] in Hblock, Hlt.
  assert (Hy : p / gw < gh) by (apply Nat.Div0.div_lt_upper_bound; lia).
  rewrite !Nat.div_1_r, (Nat.div_small (p / gw) gh) in Hblock by exact Hy.
  rewrite (Nat.div_small (gh - 1) gh), !Nat.div_1_r,
    (Nat.div_small (p / gw) gh) in Hlt by lia.
  assert (Hx : p mod gw < gw) by (apply Nat.mod_upper_bound; lia).
  assert (m = 0) as -> by nia.
  rewrite Hc; f_equal; lia.
Qed.

Lemma col_per_class_columns_witness :
  select_size (shape alternating) "1080p" = Ret (3, 2)%Z
  /\ forall g reals labels,
       label_size first_class_only = 3 ->
       setup_snapshot_image_grid first_class_only "1080p" "col_per_class"
       = Ret (g, reals, labels) ->
       (nth 3 reals [], nth 3 labels [])
       = (zeros_image (shape first_class_only), [0; 0; 0]%Z)
       \/ exists t,
            (nth 3 reals [], nth 3 labels []) = examples first_class_only t
            /\ np_argmax (snd (examples first_class_only t)) = Ret 0.
Proof.
  split; [reflexivity | ].
  intros g reals labels _ Hret.
  exact (col_per_class_columns first_class_only "1080p" 3 2 g reals labels 3
           eq_refl ltac:(simpl; lia) Hret ltac:(simpl; lia)).
Defined.

End SnapshotMore.

(** ** The image grid: default layout, background, layouts too small *)

Module ImageGridMore.

Import NdArray ImageUtils ImageGridFacts.
Local Open Scope outcome_scope.

(** What [assign_tile] leaves as it was: the shape, and every element
    outside the rows [y .. y + h - 1] or the columns [x .. x + w - 1]. *)
Lemma assign_tile_outside (A : Type) (grid grid' src : ndarray A)
  (y x h w : nat) :
  assign_tile grid y x h w src = Ret grid' ->
  shape grid' = shape grid
  /\ forall l r c,
       ~ (y <= r < y + h /\ x <= c < x + w) ->
       item grid' (l ++ [r; c]) = item grid (l ++ [r; c]).
Proof.
  unfold assign_tile.
  destruct (split_last2 (shape grid)) as [[[lead rows] cols] | ];
    [ | discriminate].
  destruct (split_last2 (shape src)) as [[[slead sh] sw] | ];
    [ | discriminate].
  destruct (_ && _ && _); [ | discriminate].
  intros [= <-]; split; [reflexivity | ].
  intros l r c Hout; cbn [item]; rewrite split_last2_app.
  destruct (Nat.leb_spec (Nat.min y rows) r); cbn [andb]; [ | reflexivity].
  destruct (Nat.ltb_spec r (Nat.min (y + h) rows)); cbn [andb];
    [ | reflexivity].
  destruct (Nat.leb_spec (Nat.min x cols) c); cbn [andb]; [ | reflexivity].
  destruct (Nat.ltb_spec c (Nat.min (x + w) cols)); [ | reflexivity].
  exfalso; apply Hout; lia.
Qed.

Lemma paste_images_shape (A : Type) (images : ndarray A)
  (grid_w img_w img_h : nat) (idxs : list nat) (grid grid' : ndarray A) :
  paste_images images grid_w img_w img_h idxs grid = Ret grid' ->
  shape grid' = shape grid.
Proof.
  revert grid; induction idxs as [ | idx rest IH]; intros grid; simpl.
  - intros [= <-]; reflexivity.
  - destruct (grid_w =? 0); [discriminate | ].
    intros H; apply bind_Ret_inv in H; destruct H as (g1 & Hassign & H).
    rewrite (IH _ H); apply (assign_tile_outside _ _ _ _ _ _ _ _ Hassign).
Qed.

(** Whether row [y] and column [x] of the grid fall in the tile of
    image [i]. *)
Definition in_tile (cols H W i y x : nat) : Prop :=
  (i / cols) * H <= y < (i / cols) * H + H
  /\ (i mod cols) * W <= x < (i mod cols) * W + W.

Lemma paste_images_outside (A : Type) (images : ndarray A) (cols W H : nat)
  (n k : nat) (grid grid' : ndarray A) (l : list nat) (y x : nat) :
  paste_images images cols W H (seq k n) grid = Ret grid' ->
  (forall i, k <= i < k + n -> ~ in_tile cols H W i y x) ->
  item grid' (l ++ [y; x]) = item grid (l ++ [y; x]).
Proof.
  revert k grid; induction n as [ | n IH]; intros k grid; simpl.
  - intros [= <-] _; reflexivity.
  - destruct (cols =? 0); [discriminate | ].
    intros Hp Hout; apply bind_Ret_inv in Hp; destruct Hp as (g1 & Ha & Hp).
    rewrite (IH _ _ Hp) by (intros i Hi; apply Hout; lia).
    apply (assign_tile_outside _ _ _ _ _ _ _ _ Ha).
    apply (Hout k); lia.
Qed.

(** What [create_image_grid] comes to for a batch of three or four
    dimensions. *)
Lemma create_image_grid_unfold (A : Type) (zero : A) (images : ndarray A)
  (N H W : nat) (lead : list nat) (grid_size : option (nat * nat)) :
  shape images = N :: lead ++ [H; W] -> length lead <= 1 ->
  create_image_grid zero images grid_size
  = let '(grid_w, grid_h) :=
      match grid_size with
      | Some (w, h) => (w, h)
      | None =>
          (Nat.max (ceil_sqrt N) 1,
           Nat.max ((N - 1) / Nat.max (ceil_sqrt N) 1 + 1) 1)
      end in
    paste_images images grid_w W H (seq 0 N)
      (zeros zero (lead ++ [grid_h * H; grid_w * W])).
Proof.
  intros Hshape Hlead; unfold create_image_grid, ndim; rewrite Hshape.
  destruct lead as [ | ch [ | ch' lead']]; [ | | simpl in Hlead; lia];
    destruct grid_size as [[w h] | ]; reflexivity.
Qed.

(** Outside the tiles of the images the grid is zero. *)
Theorem create_image_grid_background (A : Type) (zero : A)
  (images : ndarray A) (N H W cols rows : nat) (lead : list nat)
  (grid : ndarray A) :
  shape images = N :: lead ++ [H; W] -> length lead <= 1 ->
  create_image_grid zero images (Some (cols, rows)) = Ret grid ->
  forall l y x,
    (forall i, i < N -> ~ in_tile cols H W i y x) ->
    item grid (l ++ [y; x]) = zero.
Proof.
  intros Hshape Hlead Hret l y x Hout.
  rewrite (create_image_grid_unfold A zero images N H W lead _ Hshape Hlead)
    in Hret.
  rewrite (paste_images_outside A images cols W H N 0 _ grid l y x Hret);
    [reflexivity | intros i Hi; apply Hout; lia].
Qed.

Lemma create_image_grid_background_witness :
  shape five_images = [5; 2; 2]
  /\ forall grid,
       create_image_grid 0 five_images (Some (3, 2)) = Ret grid ->
       item grid [3; 5] = 0.
Proof.
  split; [reflexivity | ].
  intros grid Hret.
  apply (create_image_grid_background nat 0 five_images 5 2 2 3 2 [] grid
           eq_refl (le_0_n 1) Hret [] 3 5).
  intros i Hi [Hrow Hcol].
  destruct i as [ | [ | [ | [ | [ | i]]]]]; simpl in Hrow, Hcol; lia.
Defined.

Lemma ceil_sqrt_spec (N : nat) :
  N <= ceil_sqrt N * ceil_sqrt N
  /\ (0 < N -> (ceil_sqrt N - 1) * (ceil_sqrt N - 1) < N).
Proof.
  unfold ceil_sqrt; pose proof (Nat.sqrt_spec N (Nat.le_0_l N)) as [Hlo Hhi].
  destruct (Nat.eqb_spec (Nat.sqrt N * Nat.sqrt N) N) as [E | Hne].
  - split; [lia | intros HN; nia].
  - split; [lia | intros _; nia].
Qed.

(** Without a layout the grid is the smallest square of tiles that
    holds the batch, less the rows it leaves empty: [cols] is the
    square root of [N] rounded up, the last row is not empty, there
    are no more rows than columns, and every image is in its tile. *)
Theorem create_image_grid_default (A : Type) (zero : A) (images : ndarray A)
  (N H W : nat) (lead : list nat) :
  shape images = N :: lead ++ [H; W] -> length lead <= 1 ->
  let cols := Nat.max (ceil_sqrt N) 1 in
  let rows := Nat.max ((N - 1) / cols + 1) 1 in
  N <= cols * cols /\ rows <= cols
  /\ (0 < N -> (cols - 1) * (cols - 1) < N /\ (rows - 1) * cols < N)
  /\ exists grid,
       create_image_grid zero images None = Ret grid
       /\ shape grid = lead ++ [rows * H; cols * W]
       /\ forall i l r c,
            i < N -> r < H -> c < W ->
            item grid (l ++ [(i / cols) * H + r; (i mod cols) * W + c])
            = item images (i :: l ++ [r; c]).
Proof.
  intros Hshape Hlead cols rows.
  destruct (ceil_sqrt_spec N) as [Hsq Hmin].
  assert (Hcols : 0 < cols) by (subst cols; lia).
  assert (Hsquare : N <= cols * cols) by (subst cols; nia).
  assert (Hdiv : (N - 1) / cols * cols <= N - 1).
  { pose proof (Nat.div_mod_eq (N - 1) cols); nia. }
  assert (Hrows : rows <= cols).
  { subst rows.
    assert ((N - 1) / cols < cols \/ N = 0).
    { destruct N as [ | N']; [right; reflexivity | left].
      apply Nat.Div0.div_lt_upper_bound; lia. }
    destruct H0 as [? | ->]; [lia | ].
    rewrite Nat.Div0.div_0_l; lia. }
  assert (Hroom : N <= cols * rows).
  { destruct N as [ | N']; [lia | ].
    pose proof (SnapshotFacts.blocks_cover (S N') cols Hcols ltac:(lia)).
    subst rows; nia. }
  split; [exact Hsquare | split; [exact Hrows | split]].
  - intros HN; split.
    + specialize (Hmin HN); subst cols.
      destruct (Nat.max_spec (ceil_sqrt N) 1) as [[_ ->] | [_ ->]]; [lia | ].
      exact Hmin.
    + subst rows.
      replace (Nat.max ((N - 1) / cols + 1) 1 - 1) with ((N - 1) / cols)
        by lia.
      lia.
  - destruct (paste_images_tiled A images N H W cols rows lead Hshape N 0
                (zeros zero (lead ++ [rows * H; cols * W])) Hroom)
      as (grid & Hpaste & Hshape' & Htiles).
    + split; [reflexivity | intros i l r c Hi; lia].
    + exists grid; split; [ | split; [exact Hshape' | exact Htiles]].
      rewrite (create_image_grid_unfold A zero images N H W lead None
                 Hshape Hlead).
      exact Hpaste.
Qed.

Lemma create_image_grid_default_witness :
  shape five_images = [5; 2; 2]
  /\ exists grid,
       create_image_grid 0 five_images None = Ret grid
       /\ shape grid = [4; 6]
       /\ item grid [2 + 1; 2 + 0] = 510.
Proof.
  split; [reflexivity | ].
  destruct (create_image_grid_default nat 0 five_images 5 2 2 []
              eq_refl (le_0_n 1))
    as (_ & _ & _ & grid & Hret & Hshape & Htiles).
  exists grid; split; [exact Hret | split; [exact Hshape | ]].
  exact (Htiles 4 [] 1 0 ltac:(lia) ltac:(lia) ltac:(lia)).
Defined.

Lemma paste_images_app (A : Type) (images : ndarray A) (cols W H : nat)
  (l1 l2 : list nat) (grid : ndarray A) :
  paste_images images cols W H (l1 ++ l2) grid
  = (g <- paste_images images cols W H l1 grid;;
     paste_images images cols W H l2 g).
Proof.
  revert grid; induction l1 as [ | idx l1 IH]; intros grid; simpl;
    [reflexivity | ].
  destruct (cols =? 0); [reflexivity | ].
  destruct (assign_tile grid _ _ H W (subarray images idx)); simpl; auto.
Qed.

(** A layout with fewer tiles than images is refused when the images
    have two rows or more: the first image without a tile raises
    [ValueError]. *)
Theorem create_image_grid_too_small (A : Type) (zero : A) (images : ndarray A)
  (N H W cols rows : nat) (lead : list nat) :
  shape images = N :: lead ++ [H; W] -> length lead <= 1 ->
  0 < cols -> cols * rows < N -> 2 <= H ->
  create_image_grid zero images (Some (cols, rows)) = Raise ValueError.
Proof.
  intros Hshape Hlead Hcols Hfew HH.
  rewrite (create_image_grid_unfold A zero images N H W lead _ Hshape Hlead).
  cbv zeta iota beta.
  replace N with (cols * rows + S (N - cols * rows - 1)) at 1 by lia.
  rewrite seq_app, paste_images_app.
  destruct (paste_images_tiled A images N H W cols rows lead Hshape
              (cols * rows) 0 (zeros zero (lead ++ [rows * H; cols * W]))
              ltac:(lia))
    as (g1 & Hpaste & Hshape1 & _).
  { split; [reflexivity | intros i l r c Hi; lia]. }
  rewrite Hpaste; cbn [bind Nat.add seq paste_images].
  destruct (Nat.eqb_spec cols 0); [lia | ].
  unfold assign_tile; rewrite Hshape1, split_last2_app.
  unfold subarray at 1; cbn [shape]; rewrite Hshape; cbn [tl].
  rewrite split_last2_app.
  rewrite (Nat.mul_comm cols rows), Nat.div_mul by lia.
  rewrite (Nat.min_l (rows * H) (rows * H)) by lia.
  rewrite (Nat.min_r (rows * H + H) (rows * H)) by lia.
  rewrite Nat.sub_diag.
  destruct (Nat.eqb_spec H 0); [lia | ].
  destruct (Nat.eqb_spec H 1); [lia | ].
  destruct (list_eq_dec Nat.eq_dec lead lead); reflexivity.
Qed.

Lemma create_image_grid_too_small_witness :
  2 * 2 < 5
  /\ create_image_grid 0 five_images (Some (2, 2)) = Raise ValueError.
Proof.
  split; [lia | ].
  exact (create_image_grid_too_small nat 0 five_images 5 2 2 2 2 []
           eq_refl (le_0_n 1) ltac:(lia) ltac:(lia) ltac:(lia)).
Defined.

Lemma assign_tile_below (A : Type) (grid src : ndarray A) (lead : list nat)
  (rows cols W y x : nat) :
  shape grid = lead ++ [rows; cols * W] -> shape src = lead ++ [1; W] ->
  rows <= y -> x + W <= cols * W ->
  exists grid',
    assign_tile grid y x 1 W src = Ret grid'
    /\ shape grid' = shape grid
    /\ forall l r c, item grid' (l ++ [r; c]) = item grid (l ++ [r; c]).
Proof.
  intros Hg Hs Hy Hx; unfold assign_tile.
  rewrite Hg, Hs, !split_last2_app.
  rewrite (Nat.min_r y rows), (Nat.min_r (y + 1) rows), (Nat.min_l x (cols * W)),
    (Nat.min_l (x + W) (cols * W)) by lia.
  replace (x + W - x) with W by lia.
  rewrite Nat.sub_diag, !Nat.eqb_refl; cbn [Nat.eqb orb andb].
  destruct (list_eq_dec Nat.eq_dec lead lead) as [_ | ?]; [ | contradiction].
  cbn [orb andb].
  eexists; split; [reflexivity | split; [reflexivity | ]].
  intros l r c; cbn [item]; rewrite split_last2_app.
  destruct (Nat.leb_spec rows r); cbn [andb]; [ | reflexivity].
  destruct (Nat.ltb_spec r rows); [lia | reflexivity].
Qed.

Lemma paste_images_below (A : Type) (images : ndarray A) (N W cols rows : nat)
  (lead : list nat) (n k : nat) (grid : ndarray A) :
  shape images = N :: lead ++ [1; W] -> 0 < cols ->
  shape grid = lead ++ [rows; cols * W] -> cols * rows <= k ->
  exists grid',
    paste_images images cols W 1 (seq k n) grid = Ret grid'
    /\ forall l r c, item grid' (l ++ [r; c]) = item grid (l ++ [r; c]).
Proof.
  intros Hshape Hcols; revert k grid.
  induction n as [ | n IH]; intros k grid Hg Hk; simpl.
  - exists grid; split; [reflexivity | reflexivity].
  - destruct (Nat.eqb_spec cols 0); [lia | ].
    assert (Hrow : rows <= k / cols)
      by (apply Nat.div_le_lower_bound; lia).
    assert (Hcol : k mod cols < cols) by (apply Nat.mod_upper_bound; lia).
    destruct (assign_tile_below A grid (subarray images k) lead rows cols W
                (k / cols * 1) (k mod cols * W) Hg)
      as (g1 & Ha & Hg1 & Hsame); [ | lia | nia | ].
    { unfold subarray; cbn [shape]; rewrite Hshape; reflexivity. }
    rewrite Ha; cbn [bind].
    destruct (IH (S k) g1 ltac:(congruence) ltac:(lia)) as (g2 & Hp & Hsame2).
    exists g2; split; [exact Hp | ].
    intros l r c; rewrite Hsame2; apply Hsame.
Qed.

(** Images of a single row are the exception: a layout with fewer
    tiles than images is not refused, the images without a tile are
    left out and those with one are in it. *)
Theorem create_image_grid_rows_of_one (A : Type) (zero : A)
  (images : ndarray A) (N W cols rows : nat) (lead : list nat) :
  shape images = N :: lead ++ [1; W] -> length lead <= 1 -> 0 < cols ->
  exists grid,
    create_image_grid zero images (Some (cols, rows)) = Ret grid
    /\ shape grid = lead ++ [rows * 1; cols * W]
    /\ forall i l c,
         i < N -> i < cols * rows -> c < W ->
         item grid (l ++ [i / cols; (i mod cols) * W + c])
         = item images (i :: l ++ [0; c]).
Proof.
  intros Hshape Hlead Hcols.
  rewrite (create_image_grid_unfold A zero images N 1 W lead _ Hshape Hlead).
  cbv zeta iota beta.
  set (M := Nat.min N (cols * rows)).
  assert (Hsplit : seq 0 N = seq 0 M ++ seq M (N - M))
    by (rewrite <- seq_app; f_equal; lia).
  rewrite Hsplit, paste_images_app.
  destruct (paste_images_tiled A images N 1 W cols rows lead Hshape M 0
              (zeros zero (lead ++ [rows * 1; cols * W])) ltac:(lia))
    as (g1 & Hpaste & Hshape1 & Htiles).
  { split; [reflexivity | intros i l r c Hi; lia]. }
  rewrite Hpaste; cbn [bind Nat.add].
  assert (Hrest : exists grid,
             paste_images images cols W 1 (seq M (N - M)) g1 = Ret grid
             /\ forall l r c, item grid (l ++ [r; c]) = item g1 (l ++ [r; c])).
  { destruct (Nat.le_gt_cases N (cols * rows)) as [Hle | Hgt].
    - replace (N - M) with 0 by lia.
      exists g1; split; reflexivity.
    - apply (paste_images_below A images N W cols rows lead (N - M) M g1
               Hshape Hcols); [ | lia].
      rewrite Hshape1, Nat.mul_1_r; reflexivity. }
  destruct Hrest as (grid & Hgrid & Hsame).
  exists grid; split; [exact Hgrid | split].
  - rewrite (paste_images_shape _ _ _ _ _ _ _ _ Hgrid); exact Hshape1.
  - intros i l c Hi HiM Hc.
    rewrite Hsame.
    pose proof (Htiles i l 0 c ltac:(lia) ltac:(lia) Hc) as Ht.
    rewrite Nat.mul_1_r, Nat.add_0_r in Ht; exact Ht.
Qed.

(** Five images of one row of two pixels. *)
Definition five_rows : ndarray nat :=
  {| shape := [5; 1; 2];
     item := fun idx =>
       match idx with
       | [i; r; c] => 100 * (i + 1) + 10 * r + c
       | _ => 0
       end |}.

Lemma create_image_grid_rows_of_one_witness :
  shape five_rows = [5; 1; 2]
  /\ exists grid,
       create_image_grid 0 five_rows (Some (2, 2)) = Ret grid
       /\ shape grid = [2; 4]
       /\ item grid [1; 3] = 401.
Proof.
  split; [reflexivity | ].
  destruct (create_image_grid_rows_of_one nat 0 five_rows 5 2 2 2 []
              eq_refl (le_0_n 1) ltac:(lia))
    as (grid & Hret & Hshape & Htiles).
  exists grid; split; [exact Hret | split; [exact Hshape | ]].
  exact (Htiles 3 [] 1 ltac:(lia) ltac:(lia) ltac:(lia)).
Defined.

End ImageGridMore.

(** ** Saving a grid: [save_image_grid] *)

Module SaveGrid.

Import NdArray ImageUtils ImageGridFacts ImageGridMore RangeFacts.
Local Open Scope outcome_scope.











End SaveGrid.

(** ** Dynamic range and bytes: ends, composition, order, saturation *)

Module RangeMore.

Import NdArray ImageUtils RangeFacts SaveGrid.
Local Open Scope Q_scope.














End RangeMore.

(** * The cutout: when it fails, when it returns, and gray images *)

Module AugmentMore.

Import NdArray Augment AugmentFacts.
Local Open Scope Z_scope.
















End AugmentMore.

(** * The mirror augmentations *)

Module MirrorFacts.

Import NdArray Mirror.

(** Reading a row backwards is reading it at the indices counted from
    its end. *)
Lemma rev_map_seq (B : Type) (g : nat -> B) (W : nat) :
  rev (map g (seq 0 W)) = map (fun w => g (W - 1 - w)) (seq 0 W).
Proof.
  induction W as [ | W IH]; [reflexivity | ].
  assert (E : rev (map g (seq 0 (S W))) = g W :: rev (map g (seq 0 W))).
  { rewrite seq_S, map_app, rev_app_distr; reflexivity. }
  rewrite E, IH; change (seq 0 (S W)) with (0 :: seq 1 W).
  rewrite <- seq_shift, map_cons, map_map.
  replace (S W - 1 - 0) with W by lia; f_equal.
  apply map_ext_in; intros w Hw; apply in_seq in Hw; f_equal; lia.
Qed.

Lemma apply_mirror_augment_4d (A : Type) (u : nat -> Q) (x : ndarray A)
  (N C H W : nat) :
  shape x = [N; C; H; W] ->
  exists y,
    apply_mirror_augment u x = Ret y
    /\ shape y = [N; C; H; W]
    /\ forall n c h w,
         item y [n; c; h; w]
         = item x [n; c; h; if flip_mask u n then W - 1 - w else w].
Proof.
  intros Hshape; unfold apply_mirror_augment, ndim; rewrite Hshape.
  cbn [length Nat.ltb Nat.leb].
  eexists; split; [reflexivity | split; [reflexivity | ]].
  intros n c h w; cbn [item reversed].
  destruct (flip_mask u n); reflexivity.
Qed.

Lemma apply_mirror_augment_v_4d (A : Type) (u : nat -> Q) (x : ndarray A)
  (N C H W : nat) :
  shape x = [N; C; H; W] ->
  exists y,
    apply_mirror_augment_v u x = Ret y
    /\ shape y = [N; C; H; W]
    /\ forall n c h w,
         item y [n; c; h; w]
         = item x [n; c; if flip_mask u n then H - 1 - h else h; w].
Proof.
  intros Hshape; unfold apply_mirror_augment_v, ndim; rewrite Hshape.
  cbn [length Nat.ltb Nat.leb].
  eexists; split; [reflexivity | split; [reflexivity | ]].
  intros n c h w; cbn [item reversed].
  destruct (flip_mask u n); reflexivity.
Qed.

(** [apply_mirror_augment] keeps the shape of a minibatch of four axes;
    of an element whose draw is below a half every row comes back read
    from right to left, and the rows of the other elements come back as
    they were. *)
Theorem apply_mirror_augment_rows (A : Type) (u : nat -> Q) (x : ndarray A)
  (N C H W : nat) :
  shape x = [N; C; H; W] ->
  exists y,
    apply_mirror_augment u x = Ret y
    /\ shape y = shape x
    /\ forall n c h,
         map (fun w => item y [n; c; h; w]) (seq 0 W)
         = if flip_mask u n
           then rev (map (fun w => item x [n; c; h; w]) (seq 0 W))
           else map (fun w => item x [n; c; h; w]) (seq 0 W).
Proof.
  intros Hshape.
  destruct (apply_mirror_augment_4d A u x N C H W Hshape)
    as (y & Hret & Hy & Hitem).
  exists y; split; [exact Hret | split; [congruence | ]].
  intros n c h.
  destruct (flip_mask u n) eqn:Hmask.
  - rewrite (rev_map_seq A (fun w => item x [n; c; h; w]) W).
    apply map_ext; intros w; rewrite Hitem, Hmask; reflexivity.
  - apply map_ext; intros w; rewrite Hitem, Hmask; reflexivity.
Qed.

(** Two images of one channel, two rows and three columns. *)
Definition two_images : ndarray Z :=
  {| shape := [2; 1; 2; 3];
     item := fun idx =>
       match idx with
       | [n; _; h; w] => Z.of_nat (100 * n + 10 * h + w)
       | _ => 0%Z
       end |}.

(** Draws that flip the first image and not the second. *)
Definition first_only (n : nat) : Q := if n =? 0 then 1 # 4 else 3 # 4.

Lemma apply_mirror_augment_rows_witness :
  shape two_images = [2; 1; 2; 3]
  /\ exists y,
       apply_mirror_augment first_only two_images = Ret y
       /\ map (fun w => item y [0; 0; 1; w]) (seq 0 3) = [12; 11; 10]%Z
       /\ map (fun w => item y [1; 0; 1; w]) (seq 0 3) = [110; 111; 112]%Z.
Proof.
  split; [reflexivity | ].
  destruct (apply_mirror_augment_rows Z first_only two_images 2 1 2 3 eq_refl)
    as (y & Hret & _ & Hrows).
  exists y; split; [exact Hret | split].
  - exact (Hrows 0 0 1).
  - exact (Hrows 1 0 1).
Defined.

(** [apply_mirror_augment_v] does the same to the columns: those of an
    element whose draw is below a half come back read from bottom to
    top. *)
Theorem apply_mirror_augment_v_columns (A : Type) (u : nat -> Q)
  (x : ndarray A) (N C H W : nat) :
  shape x = [N; C; H; W] ->
  exists y,
    apply_mirror_augment_v u x = Ret y
    /\ shape y = shape x
    /\ forall n c w,
         map (fun h => item y [n; c; h; w]) (seq 0 H)
         = if flip_mask u n
           then rev (map (fun h => item x [n; c; h; w]) (seq 0 H))
           else map (fun h => item x [n; c; h; w]) (seq 0 H).
Proof.
  intros Hshape.
  destruct (apply_mirror_augment_v_4d A u x N C H W Hshape)
    as (y & Hret & Hy & Hitem).
  exists y; split; [exact Hret | split; [congruence | ]].
  intros n c w.
  destruct (flip_mask u n) eqn:Hmask.
  - rewrite (rev_map_seq A (fun h => item x [n; c; h; w]) H).
    apply map_ext; intros h; rewrite Hitem, Hmask; reflexivity.
  - apply map_ext; intros h; rewrite Hitem, Hmask; reflexivity.
Qed.

Lemma apply_mirror_augment_v_columns_witness :
  shape two_images = [2; 1; 2; 3]
  /\ exists y,
       apply_mirror_augment_v first_only two_images = Ret y
       /\ map (fun h => item y [0; 0; h; 2]) (seq 0 2) = [12; 2]%Z
       /\ map (fun h => item y [1; 0; h; 2]) (seq 0 2) = [102; 112]%Z.
Proof.
  split; [reflexivity | ].
  destruct (apply_mirror_augment_v_columns Z first_only two_images 2 1 2 3
              eq_refl)
    as (y & Hret & _ & Hcols).
  exists y; split; [exact Hret | split].
  - exact (Hcols 0 0 2).
  - exact (Hcols 1 0 2).
Defined.

(** Mirroring twice with the same draws gives the minibatch back:
    every element inside the shape is the one of the input. *)
Theorem apply_mirror_augment_twice (A : Type) (u : nat -> Q) (x : ndarray A)
  (N C H W : nat) :
  shape x = [N; C; H; W] ->
  exists y z,
    apply_mirror_augment u x = Ret y
    /\ apply_mirror_augment u y = Ret z
    /\ shape z = shape x
    /\ forall n c h w, w < W -> item z [n; c; h; w] = item x [n; c; h; w].
Proof.
  intros Hshape.
  destruct (apply_mirror_augment_4d A u x N C H W Hshape)
    as (y & Hret & Hy & Hitem).
  destruct (apply_mirror_augment_4d A u y N C H W Hy)
    as (z & Hret' & Hz & Hitem').
  exists y, z; split; [exact Hret | split; [exact Hret' | ]].
  split; [congruence | ].
  intros n c h w Hw; rewrite Hitem', Hitem.
  destruct (flip_mask u n); [ | reflexivity].
  replace (W - 1 - (W - 1 - w)) with w by lia; reflexivity.
Qed.

Lemma apply_mirror_augment_twice_witness :
  shape two_images = [2; 1; 2; 3]
  /\ exists y z,
       apply_mirror_augment first_only two_images = Ret y
       /\ apply_mirror_augment first_only y = Ret z
       /\ item z [0; 0; 1; 2] = item two_images [0; 0; 1; 2].
Proof.
  split; [reflexivity | ].
  destruct (apply_mirror_augment_twice Z first_only two_images 2 1 2 3
              eq_refl)
    as (y & z & Hret & Hret' & _ & Hitem).
  exists y, z; split; [exact Hret | split; [exact Hret' | ]].
  apply Hitem; lia.
Defined.

(** The two mirrors commute: mirroring the rows with the draws [u] and
    then the columns with the draws [v] gives the same minibatch as the
    columns first and the rows after. *)
Theorem mirror_augments_commute (A : Type) (u v : nat -> Q) (x : ndarray A)
  (N C H W : nat) :
  shape x = [N; C; H; W] ->
  exists y z y' z',
    apply_mirror_augment u x = Ret y
    /\ apply_mirror_augment_v v y = Ret z
    /\ apply_mirror_augment_v v x = Ret y'
    /\ apply_mirror_augment u y' = Ret z'
    /\ shape z = shape z'
    /\ forall n c h w, item z [n; c; h; w] = item z' [n; c; h; w].
Proof.
  intros Hshape.
  destruct (apply_mirror_augment_4d A u x N C H W Hshape)
    as (y & Hy & Hys & Hyi).
  destruct (apply_mirror_augment_v_4d A v y N C H W Hys)
    as (z & Hz & Hzs & Hzi).
  destruct (apply_mirror_augment_v_4d A v x N C H W Hshape)
    as (y' & Hy' & Hys' & Hyi').
  destruct (apply_mirror_augment_4d A u y' N C H W Hys')
    as (z' & Hz' & Hzs' & Hzi').
  exists y, z, y', z'.
  split; [exact Hy | split; [exact Hz | split; [exact Hy' | ]]].
  split; [exact Hz' | split; [congruence | ]].
  intros n c h w; rewrite Hzi, Hyi, Hzi', Hyi'; reflexivity.
Qed.

Lemma mirror_augments_commute_witness :
  shape two_images = [2; 1; 2; 3]
  /\ exists y z y' z',
       apply_mirror_augment first_only two_images = Ret y
       /\ apply_mirror_augment_v first_only y = Ret z
       /\ apply_mirror_augment_v first_only two_images = Ret y'
       /\ apply_mirror_augment first_only y' = Ret z'
       /\ item z [0; 0; 0; 0] = item z' [0; 0; 0; 0].
Proof.
  split; [reflexivity | ].
  destruct (mirror_augments_commute Z first_only first_only two_images
              2 1 2 3 eq_refl)
    as (y & z & y' & z' & Hy & Hz & Hy' & Hz' & _ & Hitem).
  exists y, z, y', z'.
  split; [exact Hy | split; [exact Hz | split; [exact Hy' | ]]].
  split; [exact Hz' | apply Hitem].
Defined.

End MirrorFacts.

(** * The latest pickle: the order of the listing, and the counts *)

Module PickleMore.

Import Pickle PickleFacts.




(** *** The order of strings and the order of counts *)










(** *** Base names *)







End PickleMore.
